(** * OpenGuessr Enhanced: the location extraction engine

    A shallow embedding of [Utils.parseCoordinates] and of the
    [LocationExtractor] object of [openguessr_enhanced_2026.user.js],
    together with the parts of the JavaScript runtime they call
    ([String.prototype.split], [trim], [includes], [match], [parseFloat]).

    Conventions of the model.
    - A JavaScript string is a [string]: a sequence of code units, here the
      code units below 256.
    - A JavaScript number is a [number]: [NaN], a signed infinity, or the
      exact rational denoted by the numeral that was parsed.  Rounding to
      binary64 (and so overflow to Infinity and the sign of zero) is not
      part of the model; comparisons are exact.
    - An abrupt completion ([throw], a rejected promise) is the [Throw]
      constructor of [completion]; [try_catch] is the [try]/[catch]
      statement.
    - The DOM and the network are inputs: a document is the list of its
      iframe elements in document order, each with its [src] and with what
      [new URL(iframe.src)] evaluates to. *)

From Stdlib Require Import ZArith QArith Bool List Lia.
From Stdlib Require Import Strings.Ascii Strings.String.
Import ListNotations.

Local Open Scope string_scope.
Local Open Scope bool_scope.

(* ================================================================== *)
(** ** The JavaScript runtime the engine relies on *)
(* ================================================================== *)

Module JS.

(** *** Completions *)

Inductive completion (A : Type) : Type :=
| Normal (a : A)
| Throw (err : string).

Arguments Normal {A} a.
Arguments Throw {A} err.

Definition bind {A B : Type} (c : completion A) (k : A -> completion B)
  : completion B :=
  match c with
  | Normal a => k a
  | Throw e => Throw e
  end.

Definition try_catch {A : Type} (body : completion A) (handler : string -> A)
  : A :=
  match body with
  | Normal a => a
  | Throw e => handler e
  end.

(** *** Characters *)

Definition code (c : ascii) : N := N_of_ascii c.

(** [\d] *)
Definition is_digit (c : ascii) : bool :=
  (48 <=? code c)%N && (code c <=? 57)%N.

(** [[\d.]] *)
Definition is_digit_or_dot (c : ascii) : bool :=
  is_digit c || Ascii.eqb c ".".

(** WhiteSpace and LineTerminator code units below 256: TAB, LF, VT, FF,
    CR, SP, NBSP.  This is the set of [trim], of [\s] and of the leading
    blanks [parseFloat] skips. *)
Definition is_space (c : ascii) : bool :=
  let n := code c in
  ((9 <=? n)%N && (n <=? 13)%N) || (n =? 32)%N || (n =? 160)%N.

Definition digit_val (c : ascii) : Z := Z.of_N (code c) - 48.

(** *** Strings *)

Definition is_empty (s : string) : bool :=
  match s with
  | EmptyString => true
  | String _ _ => false
  end.

(** The longest prefix whose characters satisfy [p], and what follows. *)
Fixpoint span (p : ascii -> bool) (s : string) : string * string :=
  match s with
  | EmptyString => (EmptyString, EmptyString)
  | String c r =>
      if p c
      then let (a, b) := span p r in (String c a, b)
      else (EmptyString, s)
  end.

Fixpoint trimStart (s : string) : string :=
  match s with
  | EmptyString => EmptyString
  | String c r => if is_space c then trimStart r else s
  end.

Fixpoint trimEnd (s : string) : string :=
  match s with
  | EmptyString => EmptyString
  | String c r =>
      let r' := trimEnd r in
      if is_space c && is_empty r' then EmptyString else String c r'
  end.

(** [s.trim()] *)
Definition trim (s : string) : string := trimEnd (trimStart s).

(** [s.split(sep)] for a one-character separator. *)
Fixpoint split (sep : ascii) (s : string) : list string :=
  match s with
  | EmptyString => [EmptyString]
  | String c r =>
      if Ascii.eqb c sep
      then EmptyString :: split sep r
      else match split sep r with
           | h :: t => String c h :: t
           | [] => [String c EmptyString]
           end
  end.

(** [hay.includes(needle)] *)
Fixpoint includes (needle hay : string) : bool :=
  prefix needle hay ||
  match hay with
  | EmptyString => false
  | String _ r => includes needle r
  end.

(** *** Numbers *)

Inductive number : Type :=
| NaN
| Infinity (negative : bool)
| Fin (q : Q).

(** The number a decimal literal of the development denotes. *)
Definition num (q : Q) : number := Fin (Qred q).

Definition isNaN (x : number) : bool :=
  match x with
  | NaN => true
  | _ => false
  end.

(** [a <= b] *)
Definition le (a b : number) : bool :=
  match a, b with
  | NaN, _ | _, NaN => false
  | Fin x, Fin y => Qle_bool x y
  | Infinity true, _ => true
  | _, Infinity false => true
  | Infinity false, _ => false
  | _, Infinity true => false
  end.

(** [a >= b] *)
Definition ge (a b : number) : bool := le b a.

(** The value of a run of decimal digits, most significant first. *)
Fixpoint digits_value (acc : Z) (s : string) : Z :=
  match s with
  | EmptyString => acc
  | String c r => digits_value (10 * acc + digit_val c) r
  end.

(** [m * 10^e] *)
Definition scale10 (m e : Z) : Q :=
  if (0 <=? e)%Z
  then inject_Z (m * 10 ^ e)
  else Qmake m (Z.to_pos (10 ^ (- e))).

Definition strip_sign (s : string) : bool * string :=
  match s with
  | String c r =>
      if Ascii.eqb c "-" then (true, r)
      else if Ascii.eqb c "+" then (false, r)
      else (false, s)
  | EmptyString => (false, s)
  end.

(** The ExponentPart at the head of [s], when there is a complete one:
    [e] or [E], an optional sign, at least one digit. *)
Definition scan_exponent (s : string) : Z :=
  match s with
  | String c r =>
      if Ascii.eqb c "e" || Ascii.eqb c "E" then
        let (neg, d) := strip_sign r in
        let (ds, _) := span is_digit d in
        if is_empty ds then 0%Z
        else if neg then (- digits_value 0 ds)%Z else digits_value 0 ds
      else 0%Z
  | EmptyString => 0%Z
  end.

(** [parseFloat(s)]: skip leading white space, take the longest prefix
    that is a StrDecimalLiteral, [NaN] when there is none. *)
Definition parseFloat (s : string) : number :=
  let (neg, u) := strip_sign (trimStart s) in
  if prefix "Infinity" u then Infinity neg
  else
    let (ip, r1) := span is_digit u in
    let (fp, r2) :=
      match r1 with
      | String c r => if Ascii.eqb c "." then span is_digit r
                      else (EmptyString, r1)
      | EmptyString => (EmptyString, EmptyString)
      end in
    if is_empty ip && is_empty fp then NaN
    else
      let m := digits_value 0 (ip ++ fp) in
      let e := (scan_exponent r2 - Z.of_nat (length fp))%Z in
      Fin (Qred (scale10 (if neg then (- m)%Z else m) e)).

(** *** Regular expressions

    The fragment the engine's three patterns are written in: a sequence
    of literal characters, optional characters, greedy repetitions of a
    character class, and capture groups that are not nested.  Matching
    is by backtracking, greedy alternatives first, as [RegExp] does. *)

Inductive atom : Type :=
| Chr (c : ascii)
| Opt (c : ascii)
| Plus (cls : ascii -> bool)
| Star (cls : ascii -> bool)
| GroupOpen
| GroupClose.

Definition regex : Type := list atom.

Record mstate : Type := {
  whole : string;
  captures : list string;
  current : option string
}.

Definition start : mstate :=
  {| whole := EmptyString; captures := []; current := None |}.

Definition push (c : ascii) (st : mstate) : mstate :=
  {| whole := whole st ++ String c EmptyString;
     captures := captures st;
     current := option_map (fun g => g ++ String c EmptyString) (current st) |}.

Definition open_group (st : mstate) : mstate :=
  {| whole := whole st; captures := captures st; current := Some EmptyString |}.

Definition close_group (st : mstate) : mstate :=
  {| whole := whole st;
     captures := captures st ++ match current st with
                                | Some g => [g]
                                | None => []
                                end;
     current := None |}.

Definition matcher : Type := string -> mstate -> option (mstate * string).

(** Greedy [cls*] followed by [k]: take one more character when that
    leads to a match, otherwise stop here. *)
Fixpoint star (cls : ascii -> bool) (k : matcher) (s : string) (st : mstate)
  : option (mstate * string) :=
  match s with
  | String c r =>
      if cls c then
        match star cls k r (push c st) with
        | Some res => Some res
        | None => k s st
        end
      else k s st
  | EmptyString => k s st
  end.

Fixpoint rmatch (re : regex) : matcher :=
  match re with
  | [] => fun s st => Some (st, s)
  | a :: re' =>
      let k := rmatch re' in
      match a with
      | Chr c => fun s st =>
          match s with
          | String x r => if Ascii.eqb x c then k r (push x st) else None
          | EmptyString => None
          end
      | Opt c => fun s st =>
          match s with
          | String x r =>
              if Ascii.eqb x c then
                match k r (push x st) with
                | Some res => Some res
                | None => k s st
                end
              else k s st
          | EmptyString => k s st
          end
      | Plus cls => fun s st =>
          match s with
          | String x r => if cls x then star cls k r (push x st) else None
          | EmptyString => None
          end
      | Star cls => star cls k
      | GroupOpen => fun s st => k s (open_group st)
      | GroupClose => fun s st => k s (close_group st)
      end
  end.

(** The leftmost match: try every start position from left to right. *)
Fixpoint exec (re : regex) (s : string) : option (mstate * string) :=
  match rmatch re s start with
  | Some res => Some res
  | None =>
      match s with
      | String _ r => exec re r
      | EmptyString => None
      end
  end.

(** [s.match(re)] for a pattern without the [g] flag: the matched text
    followed by the captures, or [null]. *)
Definition str_match (re : regex) (s : string) : option (list string) :=
  match exec re s with
  | Some (st, _) => Some (whole st :: captures st)
  | None => None
  end.

Fixpoint match_all (fuel : nat) (re : regex) (s : string) : list string :=
  match fuel with
  | O => []
  | S fuel' =>
      match exec re s with
      | None => []
      | Some (st, rest) =>
          whole st ::
          (if is_empty (whole st)
           then match rest with
                | EmptyString => []
                | String _ r => match_all fuel' re r
                end
           else match_all fuel' re rest)
      end
  end.

(** [s.match(re)] for a pattern with the [g] flag: all the matches from
    left to right, or [null] when there is none. *)
Definition str_match_g (re : regex) (s : string) : option (list string) :=
  match match_all (S (length s)) re s with
  | [] => None
  | l => Some l
  end.

End JS.

Import JS.

(* ================================================================== *)
(** ** [Utils] *)
(* ================================================================== *)

Module Utils.

(** The object [{ lat, lng }]. *)
Record coords : Type := { lat : number; lng : number }.

(** [Utils.parseCoordinates].  The argument is [None] for [null] and
    [undefined]; the empty string is falsy as well. *)
Definition parseCoordinates (coordString : option string) : option coords :=
  match coordString with
  | None => None
  | Some s =>
      if is_empty s then None
      else
        let parts := map (fun p => parseFloat (trim p)) (split "," s) in
        match parts with
        | [p0; p1] =>
            if negb (isNaN p0) && negb (isNaN p1)
            then Some {| lat := p0; lng := p1 |}
            else None
        | _ => None
        end
  end.

End Utils.

(* ================================================================== *)
(** ** The host page: documents, URLs, requests *)
(* ================================================================== *)

Module Host.

(** [url.searchParams]: the decoded name/value pairs in query order. *)
Record URL : Type := { searchParams : list (string * string) }.

Definition has (name : string) (url : URL) : bool :=
  existsb (fun p => String.eqb (fst p) name) (searchParams url).

(** [searchParams.get(name)]: the first value under [name]. *)
Definition get (name : string) (url : URL) : option string :=
  match find (fun p => String.eqb (fst p) name) (searchParams url) with
  | Some p => Some (snd p)
  | None => None
  end.

(** An iframe element: its [src], and what [new URL(iframe.src)]
    evaluates to (it throws on a string that is not a URL). *)
Record iframe : Type := {
  src : string;
  new_URL : completion URL
}.

(** The iframe elements of a tree in document order. *)
Definition document : Type := list iframe.

(** [querySelectorAll('iframe[src*="google.com/maps"]')] *)
Definition querySelectorAll (d : document) : list iframe :=
  filter (fun f => includes "google.com/maps" (src f)) d.

(** A node added to the document, as the mutation observer reports it:
    an element with its tag name, its [src] and the iframes below it, or
    a node of another type.  Every element here has a [src];
    [Observer.node] has the elements without one as well. *)
Inductive node : Type :=
| Element (tagName : string) (node_src : string) (below : document)
| OtherNode.

(** A mutation record, reduced to its [addedNodes]. *)
Record mutation : Type := { addedNodes : list node }.

(** A JavaScript value used where a URL string is expected. *)
Inductive value : Type :=
| VString (s : string)
| VObject (toString : completion string)
| VUndefined.

(** A [Response]: the body the page receives, and what
    [response.clone().text()] settles to.  This is the response of a
    request whose body can be read to the end or fails to be read;
    [Async.object] is the object itself, with a body that may never
    end. *)
Record Response : Type := {
  body : string;
  clone_text : completion string
}.

(** An [XMLHttpRequest] at its [load] event. *)
Record XMLHttpRequest : Type := {
  _url : value;
  responseText : completion string
}.

End Host.

Import Host.

(* ================================================================== *)
(** ** [LocationExtractor] *)
(* ================================================================== *)

Module LocationExtractor.

(** The [source] tags ['iframe-pb'], ['iframe-location'], ['fetch'],
    ['xhr']. *)
Inductive source_tag : Type :=
  iframe_pb | iframe_location | fetch_src | xhr_src.

(** The object [{ lat, lng, source }]. *)
Record location : Type := {
  lat : number;
  lng : number;
  source : source_tag
}.

(** [{ ...coords, source: s }] *)
Definition with_source (c : Utils.coords) (s : source_tag) : location :=
  {| lat := Utils.lat c; lng := Utils.lng c; source := s |}.

(** [LocationExtractor.currentLocation] *)
Definition cache : Type := option location.

(** [/!3d(-?[\d.]+)!4d(-?[\d.]+)/] *)
Definition pb_pattern : regex :=
  [ Chr "!"; Chr "3"; Chr "d";
    GroupOpen; Opt "-"; Plus is_digit_or_dot; GroupClose;
    Chr "!"; Chr "4"; Chr "d";
    GroupOpen; Opt "-"; Plus is_digit_or_dot; GroupClose ].

(** [/[-]?\d+\.\d+,\s*[-]?\d+\.\d+/g] *)
Definition coord_pattern : regex :=
  [ Opt "-"; Plus is_digit; Chr "."; Plus is_digit;
    Chr ","; Star is_space;
    Opt "-"; Plus is_digit; Chr "."; Plus is_digit ].

(** The [pb] branch of the loop body. *)
Definition match_pb (url : URL) : option location :=
  if has "pb" url then
    match get "pb" url with
    | Some pb =>
        match str_match pb_pattern pb with
        | Some m =>
            Some {| lat := parseFloat (nth 1 m EmptyString);
                    lng := parseFloat (nth 2 m EmptyString);
                    source := iframe_pb |}
        | None => None
        end
    | None => None
    end
  else None.

(** The [location] branch of the loop body. *)
Definition match_location (url : URL) : option location :=
  if has "location" url then
    match Utils.parseCoordinates (get "location" url) with
    | Some coords => Some (with_source coords iframe_location)
    | None => None
    end
  else None.

(** The body of the inner [try]: [Some] is a [return] from the
    function, [None] falls through to the next iteration. *)
Definition scan_iframe (f : iframe) : completion (option location) :=
  bind (new_URL f) (fun url =>
    match match_pb url with
    | Some loc => Normal (Some loc)
    | None => Normal (match_location url)
    end).

(** The [for ... of] loop; its [catch] clause is [continue]. *)
Fixpoint scan_iframes (iframes : list iframe) : completion (option location) :=
  match iframes with
  | [] => Normal None
  | f :: rest =>
      match try_catch (scan_iframe f) (fun _ => None) with
      | Some loc => Normal (Some loc)
      | None => scan_iframes rest
      end
  end.

(** [LocationExtractor.extractFromIframe] *)
Definition extractFromIframe (doc : document) : completion (option location) :=
  Normal (try_catch (scan_iframes (querySelectorAll doc)) (fun _ => None)).

(** [args[0]?.toString() || ''] *)
Definition url_of (input : value) : completion string :=
  match input with
  | VString s => Normal s
  | VObject toString => toString
  | VUndefined => Normal EmptyString
  end.

Definition in_lat_range (x : number) : bool :=
  ge x (num (-90)) && le x (num 90).

Definition in_lng_range (x : number) : bool :=
  ge x (num (-180)) && le x (num 180).

(** The [try] block of the [fetch] wrapper: the value of
    [currentLocation] when the block completes. *)
Definition inspect_fetch (input : value) (response : Response) (st : cache)
  : completion cache :=
  bind (url_of input) (fun url =>
    if includes "maps" url || includes "location" url
       || includes "coordinates" url
    then
      bind (clone_text response) (fun text =>
        match str_match_g coord_pattern text with
        | Some coordMatch =>
            match Utils.parseCoordinates (nth_error coordMatch 0) with
            | Some coords =>
                if in_lat_range (Utils.lat coords)
                   && in_lng_range (Utils.lng coords)
                then Normal (Some (with_source coords fetch_src))
                else Normal st
            | None => Normal st
            end
        | None => Normal st
        end)
    else Normal st).

(** The replacement of [window.fetch]: what the caller's promise settles
    to, and the cache afterwards, when the promises it awaits settle.
    [Async.wrapped_fetch] is the same function with the promises that
    stay pending and with the response objects in memory. *)
Definition fetch (originalFetch : value -> completion Response)
    (input : value) (st : cache) : completion Response * cache :=
  match originalFetch input with
  | Throw err => (Throw err, st)
  | Normal response =>
      (Normal response,
       try_catch (inspect_fetch input response st) (fun _ => st))
  end.

(** The [try] block of the [load] listener [send] installs. *)
Definition inspect_xhr (xhr : XMLHttpRequest) (st : cache) : completion cache :=
  let inspect (url : string) :=
    if includes "maps" url || includes "location" url then
      bind (responseText xhr) (fun text =>
        match str_match_g coord_pattern text with
        | Some coordMatch =>
            match Utils.parseCoordinates (nth_error coordMatch 0) with
            | Some coords =>
                if in_lat_range (Utils.lat coords)
                then Normal (Some (with_source coords xhr_src))
                else Normal st
            | None => Normal st
            end
        | None => Normal st
        end)
    else Normal st in
  match _url xhr with
  | VUndefined => Normal st
  | VString url => if is_empty url then Normal st else inspect url
  | VObject _ => Throw "TypeError: this._url.includes is not a function"
  end.

(** The [load] listener. *)
Definition xhr_load (xhr : XMLHttpRequest) (st : cache) : cache :=
  try_catch (inspect_xhr xhr st) (fun _ => st).

(** The mutation observer's callback, one added node. *)
Definition added_node (doc : document) (n : node) (st : cache)
  : completion cache :=
  match n with
  | OtherNode => Normal st
  | Element tagName node_src below =>
      bind (if String.eqb tagName "IFRAME"
               && includes "google.com/maps" node_src
            then bind (extractFromIframe doc) (fun location =>
                   match location with
                   | Some loc => Normal (Some loc)
                   | None => Normal st
                   end)
            else Normal st) (fun st1 =>
      if (0 <? List.length (querySelectorAll below))%nat
      then bind (extractFromIframe doc) (fun location =>
             match location with
             | Some loc => Normal (Some loc)
             | None => Normal st1
             end)
      else Normal st1)
  end.

Fixpoint added_nodes (doc : document) (ns : list node) (st : cache)
  : completion cache :=
  match ns with
  | [] => Normal st
  | n :: rest => bind (added_node doc n st) (added_nodes doc rest)
  end.

(** The mutation observer's callback. *)
Fixpoint on_mutations (doc : document) (ms : list mutation) (st : cache)
  : completion cache :=
  match ms with
  | [] => Normal st
  | m :: rest =>
      bind (added_nodes doc (addedNodes m) st) (on_mutations doc rest)
  end.

(** [LocationExtractor.getCurrentLocation]: the value returned and the
    cache afterwards. *)
Definition getCurrentLocation (doc : document) (st : cache)
  : completion (option location * cache) :=
  bind (extractFromIframe doc) (fun iframeLocation =>
    match iframeLocation with
    | Some loc => Normal (Some loc, Some loc)
    | None => Normal (st, st)
    end).

End LocationExtractor.

Import LocationExtractor.

(* ================================================================== *)
(** ** Vocabulary of the statements *)
(* ================================================================== *)

Module Spec.

(** [c] occurs in [s]. *)
Fixpoint has_char (c : ascii) (s : string) : bool :=
  match s with
  | EmptyString => false
  | String x r => Ascii.eqb x c || has_char c r
  end.

(** The number of occurrences of [c] in [s]. *)
Fixpoint count_char (c : ascii) (s : string) : nat :=
  match s with
  | EmptyString => O
  | String x r => (if Ascii.eqb x c then 1 else 0) + count_char c r
  end.

(** Every character of [s] satisfies [p]. *)
Fixpoint all_chars (p : ascii -> bool) (s : string) : bool :=
  match s with
  | EmptyString => true
  | String x r => p x && all_chars p r
  end.

(** [s] is empty or begins with a character outside [p]. *)
Definition stops (p : ascii -> bool) (s : string) : bool :=
  match s with
  | EmptyString => true
  | String x _ => negb (p x)
  end.

(** The match state after the characters of [s] were consumed. *)
Fixpoint push_all (s : string) (st : mstate) : mstate :=
  match s with
  | EmptyString => st
  | String c r => push_all r (push c st)
  end.

(** Where a match of [coord_pattern] can begin: at a digit, or at a
    minus sign followed by a digit. *)
Definition coord_start (s : string) : bool :=
  match s with
  | String c r =>
      is_digit c
      || (Ascii.eqb c "-"
          && match r with
             | String d _ => is_digit d
             | EmptyString => false
             end)
  | EmptyString => false
  end.

(** What one iframe contributes to the scan: the value its loop
    iteration returns, [None] when the iteration falls through or its
    [catch] clause runs. *)
Definition element_result (f : iframe) : option location :=
  try_catch (scan_iframe f) (fun _ => None).

(** A coordinate within the bounds of a latitude and a longitude. *)
Definition in_bounds (loc : location) : bool :=
  in_lat_range (lat loc) && in_lng_range (lng loc).

Definition is_finite (x : number) : bool :=
  match x with
  | Fin _ => true
  | _ => false
  end.

(** The keyword filter of the [fetch] wrapper. *)
Definition fetch_keyword (url : string) : bool :=
  includes "maps" url || includes "location" url || includes "coordinates" url.

(** A signed decimal numeral: sign, integer digits, fraction digits. *)
Record numeral : Type := {
  negative : bool;
  int_digits : string;
  frac_digits : string
}.

(** At least one integer digit and one fraction digit, as
    [-?\d+\.\d+] asks. *)
Definition well_formed (n : numeral) : bool :=
  all_chars is_digit (int_digits n) && negb (is_empty (int_digits n))
  && all_chars is_digit (frac_digits n) && negb (is_empty (frac_digits n)).

(** The text of a numeral. *)
Definition render (n : numeral) : string :=
  (if negative n then "-" else "") ++ int_digits n ++ "." ++ frac_digits n.

(** The rational a numeral denotes: integer part plus fraction part
    over the matching power of ten, with the sign. *)
Definition numeral_value (n : numeral) : Q :=
  let magnitude :=
    (inject_Z (digits_value 0 (int_digits n))
     + inject_Z (digits_value 0 (frac_digits n))
       / inject_Z (10 ^ Z.of_nat (length (frac_digits n))))%Q in
  if negative n then (- magnitude)%Q else magnitude.

(** [s] is two comma-free parts around one comma, and [parseFloat] of
    the trimmed parts gives the numbers [x] and [y]. *)
Definition two_numeric_parts (s : string) (x y : number) : Prop :=
  exists a b : string,
    s = a ++ "," ++ b
    /\ has_char "," a = false /\ has_char "," b = false
    /\ parseFloat (trim a) = x /\ parseFloat (trim b) = y
    /\ isNaN x = false /\ isNaN y = false.

End Spec.

Import Spec.

(* ================================================================== *)
(** ** [Storage]: the location history *)
(* ================================================================== *)

Module JSNumber.

(** [a === b] on numbers: [NaN] equals nothing, itself included. *)
Definition strict_eq (a b : number) : bool :=
  match a, b with
  | Fin x, Fin y => Qeq_bool x y
  | Infinity s, Infinity t => Bool.eqb s t
  | _, _ => false
  end.

End JSNumber.

Module Storage.

(** [CONFIG.MAX_HISTORY] *)
Definition MAX_HISTORY : nat := 50.

(** A history entry, [{ ...location, timestamp }]. *)
Record entry : Type := {
  lat : number;
  lng : number;
  source : source_tag;
  timestamp : Z
}.

Definition entry_of (location : location) (timestamp : Z) : entry :=
  {| lat := LocationExtractor.lat location;
     lng := LocationExtractor.lng location;
     source := LocationExtractor.source location;
     timestamp := timestamp |}.

(** [Storage.addLocationToHistory].  [history] is the array
    [Storage.getLocationHistory()] returned and [now] is [Date.now()];
    the result is the array handed to [Storage.set]. *)
Definition addLocationToHistory (now : Z) (location : location)
    (history : list entry) : list entry :=
  let entry := entry_of location now in
  let history :=
    filter (fun h =>
              negb (JSNumber.strict_eq (lat h) (LocationExtractor.lat location))
              || negb (JSNumber.strict_eq (lng h)
                         (LocationExtractor.lng location)))
           history in
  let history := entry :: history in
  if (MAX_HISTORY <? List.length history)%nat
  then firstn MAX_HISTORY history
  else history.

End Storage.

(* ================================================================== *)
(** ** [App]: the callers of [getCurrentLocation] *)
(* ================================================================== *)

Module App.

(** What a call leaves behind: [LocationExtractor.currentLocation],
    [App.currentLocation], and the history array handed to
    [Storage.set] when the call records the location.  The updates of
    the window (the map iframe, the coordinates line) are not part of
    the model. *)
Record outcome : Type := {
  extractor_after : cache;
  current_after : option location;
  history_written : option (list Storage.entry)
}.

(** [App.updateLocation].  [stored] is the history in storage and [now]
    the clock, both read only when the location is recorded; [cur] is
    [App.currentLocation]. *)
Definition updateLocation (now : Z) (doc : document)
    (stored : list Storage.entry) (st : cache) (cur : option location)
  : completion outcome :=
  bind (getCurrentLocation doc st) (fun r =>
    let (found, st') := r in
    match found with
    | None =>
        Normal {| extractor_after := st'; current_after := cur;
                  history_written := None |}
    | Some location =>
        if match cur with
           | Some c =>
               JSNumber.strict_eq (lat c) (lat location)
               && JSNumber.strict_eq (lng c) (lng location)
           | None => false
           end
        then Normal {| extractor_after := st'; current_after := cur;
                       history_written := None |}
        else Normal {| extractor_after := st';
                       current_after := Some location;
                       history_written :=
                         Some (Storage.addLocationToHistory
                                 now location stored) |}
    end).

(** The callback [App.startLocationMonitoring] gives to [setInterval].
    [visible] says that the container exists and is displayed. *)
Definition monitoring_tick (visible : bool) (now : Z) (doc : document)
    (stored : list Storage.entry) (st : cache) (cur : option location)
  : completion outcome :=
  if negb visible
  then Normal {| extractor_after := st; current_after := cur;
                 history_written := None |}
  else
    bind (getCurrentLocation doc st) (fun r =>
      let (found, st') := r in
      match found with
      | None =>
          Normal {| extractor_after := st'; current_after := cur;
                    history_written := None |}
      | Some location =>
          if match cur with
             | Some c =>
                 negb (JSNumber.strict_eq (lat location) (lat c))
                 || negb (JSNumber.strict_eq (lng location) (lng c))
             | None => true
             end
          then Normal {| extractor_after := st';
                         current_after := Some location;
                         history_written :=
                           Some (Storage.addLocationToHistory
                                   now location stored) |}
          else Normal {| extractor_after := st'; current_after := cur;
                         history_written := None |}
      end).

End App.

(* ================================================================== *)
(** ** Vocabulary of the further statements *)
(* ================================================================== *)

Module Props.

(** Two history entries name the same place for [===]. *)
Definition same_place (a b : Storage.entry) : bool :=
  JSNumber.strict_eq (Storage.lat a) (Storage.lat b)
  && JSNumber.strict_eq (Storage.lng a) (Storage.lng b).

(** An entry is at the place of a location. *)
Definition at_location (location : location) (e : Storage.entry) : bool :=
  JSNumber.strict_eq (Storage.lat e) (lat location)
  && JSNumber.strict_eq (Storage.lng e) (lng location).

(** No two entries of a history name the same place. *)
Fixpoint distinct_places (h : list Storage.entry) : bool :=
  match h with
  | [] => true
  | e :: r => forallb (fun x => negb (same_place e x)) r && distinct_places r
  end.

(** The added node makes the mutation observer scan the document: it
    is a map iframe or has one below it. *)
Definition triggers_scan (n : node) : bool :=
  match n with
  | Element tagName node_src below =>
      (String.eqb tagName "IFRAME" && includes "google.com/maps" node_src)
      || (0 <? List.length (querySelectorAll below))%nat
  | OtherNode => false
  end.

(** The keyword filter of the [load] listener. *)
Definition xhr_keyword (url : string) : bool :=
  includes "maps" url || includes "location" url.

(** What a triggered scan with result [scanned] does to the cache. *)
Definition promote (scanned : option location) (st : cache) : cache :=
  match scanned with
  | Some loc => Some loc
  | None => st
  end.

End Props.

(* ================================================================== *)
(** ** The [fetch] wrapper with its promises and [Response] objects *)
(* ================================================================== *)

Module Async.

(** What a promise comes to: it is fulfilled, it is rejected, or it
    never settles. *)
Inductive promise (A : Type) : Type :=
| Fulfilled (a : A)
| Rejected (err : string)
| Pending.

Arguments Fulfilled {A} a.
Arguments Rejected {A} err.
Arguments Pending {A}.

(** A [Response] object in memory: the body the page will read, whether
    that body was consumed, and what reading it as text comes to (a body
    that never ends leaves the read pending). *)
Record object : Type := {
  bytes : string;
  bodyUsed : bool;
  reading : promise string
}.

(** Objects are held by reference: the reference is the index. *)
Definition ref : Type := nat.
Definition heap : Type := list object.

Fixpoint update (r : ref) (f : object -> object) (h : heap) : heap :=
  match h, r with
  | [], _ => []
  | o :: h', O => f o :: h'
  | o :: h', S r' => o :: update r' f h'
  end.

Definition consumed (o : object) : object :=
  {| bytes := bytes o; bodyUsed := true; reading := reading o |}.

(** [r.clone()]: a new object with the same body, the object cloned
    staying as it is; a [TypeError] when the body was used already. *)
Definition clone (r : ref) (h : heap) : completion (ref * heap) :=
  match nth_error h r with
  | Some o =>
      if bodyUsed o
      then Throw "TypeError: Response body is already used"
      else Normal (List.length h, (h ++ [o])%list)
  | None => Throw "TypeError: clone is not a function"
  end.

(** [r.text()]: consumes the body of [r]; rejected when the body was
    used already. *)
Definition text (r : ref) (h : heap) : promise string * heap :=
  match nth_error h r with
  | Some o =>
      if bodyUsed o
      then (Rejected "TypeError: body stream already read", h)
      else (reading o, update r consumed h)
  | None => (Rejected "TypeError: text is not a function", h)
  end.

(** Lines 266 to 274: the search of the text read and the store. *)
Definition inspect_text (text : string) (st : cache) : cache :=
  match str_match_g coord_pattern text with
  | Some coordMatch =>
      match Utils.parseCoordinates (nth_error coordMatch 0) with
      | Some coords =>
          if in_lat_range (Utils.lat coords)
             && in_lng_range (Utils.lng coords)
          then Some (with_source coords fetch_src)
          else st
      | None => st
      end
  | None => st
  end.

(** The replacement of [window.fetch], an [async] function: what the
    promise it returns comes to, the objects in memory and the cache
    afterwards.  [await] on a promise that never settles leaves the
    function suspended for good. *)
Definition wrapped_fetch
    (originalFetch : value -> heap -> promise ref * heap)
    (input : value) (h : heap) (st : cache)
  : promise ref * heap * cache :=
  match originalFetch input h with
  | (Fulfilled response, h1) =>
      match url_of input with
      | Throw _ => (Fulfilled response, h1, st)
      | Normal url =>
          if includes "maps" url || includes "location" url
             || includes "coordinates" url
          then
            match clone response h1 with
            | Throw _ => (Fulfilled response, h1, st)
            | Normal (clonedResponse, h2) =>
                match text clonedResponse h2 with
                | (Fulfilled body, h3) =>
                    (Fulfilled response, h3, inspect_text body st)
                | (Rejected _, h3) => (Fulfilled response, h3, st)
                | (Pending, h3) => (Pending, h3, st)
                end
            end
          else (Fulfilled response, h1, st)
      end
  | (Rejected err, h1) => (Rejected err, h1, st)
  | (Pending, h1) => (Pending, h1, st)
  end.

(** What [response.clone().text()] comes to for an object, when it
    settles: the [clone_text] of the coarser [Response]. *)
Definition settled (o : object) : option (completion string) :=
  if bodyUsed o then Some (Throw "TypeError: Response body is already used")
  else match reading o with
       | Fulfilled body => Some (Normal body)
       | Rejected err => Some (Throw err)
       | Pending => None
       end.

End Async.

(* ================================================================== *)
(** ** The mutation observer's callback with its exceptions *)
(* ================================================================== *)

Module Observer.

(** A node added to the document.  [node_src] is [None] for an element
    that has no [src] property holding a string. *)
Inductive node : Type :=
| Element (tagName : string) (node_src : option string) (below : document)
| OtherNode.

Record mutation : Type := { addedNodes : list node }.

(** A piece of the callback: how it completes, and the cache it leaves.
    What was stored before a [throw] stays stored. *)
Definition action : Type := cache -> completion unit * cache.

Definition ret : action := fun st => (Normal tt, st).

Definition throw (err : string) : action := fun st => (Throw err, st).

Definition seq (a b : action) : action :=
  fun st =>
    match a st with
    | (Normal _, st1) => b st1
    | (Throw err, st1) => (Throw err, st1)
    end.

(** [const location = LocationExtractor.extractFromIframe();
     if (location) LocationExtractor.currentLocation = location;] *)
Definition scan_and_store (doc : document) : action :=
  fun st =>
    match extractFromIframe doc with
    | Normal (Some location) => (Normal tt, Some location)
    | Normal None => (Normal tt, st)
    | Throw err => (Throw err, st)
    end.

(** The body of the inner loop.  [node.src.includes] is evaluated for
    every element whose [tagName] is ['IFRAME']; there is no [try]. *)
Definition added_node (doc : document) (n : node) : action :=
  match n with
  | OtherNode => ret
  | Element tagName node_src below =>
      seq (if String.eqb tagName "IFRAME" then
             match node_src with
             | Some s =>
                 if includes "google.com/maps" s
                 then scan_and_store doc
                 else ret
             | None =>
                 throw "TypeError: Cannot read properties of undefined"
             end
           else ret)
          (if (0 <? List.length (querySelectorAll below))%nat
           then scan_and_store doc
           else ret)
  end.

Fixpoint added_nodes (doc : document) (ns : list node) : action :=
  match ns with
  | [] => ret
  | n :: rest => seq (added_node doc n) (added_nodes doc rest)
  end.

(** The callback given to [new MutationObserver]. *)
Fixpoint callback (doc : document) (ms : list mutation) : action :=
  match ms with
  | [] => ret
  | m :: rest => seq (added_nodes doc (addedNodes m)) (callback doc rest)
  end.

End Observer.

(* ================================================================== *)
(** ** [Utils.parseCoordinates] on any argument *)
(* ================================================================== *)

Module Dynamic.

(** An argument of any type; [Obj] is an object without a [split]
    method. *)
Inductive any : Type :=
| Undefined
| Null
| Boolean (b : bool)
| Num (x : number)
| Str (s : string)
| Obj.

(** [!!v] *)
Definition truthy (v : any) : bool :=
  match v with
  | Undefined | Null => false
  | Boolean b => b
  | Num NaN => false
  | Num (Fin q) => negb (Qeq_bool q 0)
  | Num (Infinity _) => true
  | Str s => negb (is_empty s)
  | Obj => true
  end.

(** [Utils.parseCoordinates] as JavaScript runs it: [coordString.split]
    is a [TypeError] for a truthy value that is not a string. *)
Definition parseCoordinates (coordString : any)
  : completion (option Utils.coords) :=
  if negb (truthy coordString) then Normal None
  else
    match coordString with
    | Str s => Normal (Utils.parseCoordinates (Some s))
    | _ => Throw "TypeError: coordString.split is not a function"
    end.

End Dynamic.

(* ================================================================== *)
(** ** Vocabulary of the statements on promises and exceptions *)
(* ================================================================== *)

Module Terms.

(** The element makes the callback throw: its [tagName] is ['IFRAME']
    and it has no [src] to call [includes] on. *)
Definition breaks (n : Observer.node) : bool :=
  match n with
  | Observer.Element tagName None _ => String.eqb tagName "IFRAME"
  | _ => false
  end.

(** The added node makes the callback scan the document. *)
Definition triggers (n : Observer.node) : bool :=
  match n with
  | Observer.Element tagName node_src below =>
      (String.eqb tagName "IFRAME"
       && match node_src with
          | Some s => includes "google.com/maps" s
          | None => false
          end)
      || (0 <? List.length (querySelectorAll below))%nat
  | Observer.OtherNode => false
  end.

(** The nodes of a batch in the order the callback visits them. *)
Definition visited (ms : list Observer.mutation) : list Observer.node :=
  flat_map Observer.addedNodes ms.

(** The nodes before the first one that satisfies [p]. *)
Fixpoint before_first {A : Type} (p : A -> bool) (l : list A) : list A :=
  match l with
  | [] => []
  | x :: r => if p x then [] else x :: before_first p r
  end.

(** A node of the coarser model, every element of which has a [src]. *)
Definition with_src (n : Host.node) : Observer.node :=
  match n with
  | Host.Element tagName node_src below =>
      Observer.Element tagName (Some node_src) below
  | Host.OtherNode => Observer.OtherNode
  end.

Definition with_srcs (m : Host.mutation) : Observer.mutation :=
  {| Observer.addedNodes := map with_src (Host.addedNodes m) |}.


End Terms.

(* ================================================================== *)
(** ** Example inputs *)
(* ================================================================== *)

Definition iframe_without_match : iframe :=
  {| src := "https://www.google.com/maps/embed?v=1";
     new_URL := Normal {| searchParams := [("v", "1")] |} |}.

Definition iframe_with_pb : iframe :=
  {| src := "https://www.google.com/maps/embed?pb=!1m3!3d48.8566!4d2.3522!5e0";
     new_URL :=
       Normal {| searchParams := [("pb", "!1m3!3d48.8566!4d2.3522!5e0")] |} |}.

Definition paris : location :=
  {| lat := num 48.8566; lng := num 2.3522; source := iframe_pb |}.

Definition philadelphia : location :=
  {| lat := num 40.0; lng := num (-75.0); source := iframe_pb |}.



Definition integer_pair_response : Response :=
  {| body := "37,-122"; clone_text := Normal "37,-122" |}.

Definition integer_pair_xhr : XMLHttpRequest :=
  {| _url := VString "https://example.org/api/location";
     responseText := Normal "37,-122" |}.

Definition wide_longitude_xhr : XMLHttpRequest :=
  {| _url := VString "https://example.org/maps/api";
     responseText := Normal "12.5,200.5" |}.

Definition wide_longitude_response : Response :=
  {| body := "12.5,200.5"; clone_text := Normal "12.5,200.5" |}.

Definition iframe_pb_out_of_range : iframe :=
  {| src := "https://www.google.com/maps/embed?pb=!3d95.0!4d200.0";
     new_URL := Normal {| searchParams := [("pb", "!3d95.0!4d200.0")] |} |}.

Definition iframe_location_out_of_range : iframe :=
  {| src := "https://www.google.com/maps/embed/v1/streetview?location=95,200";
     new_URL := Normal {| searchParams := [("location", "95,200")] |} |}.

Definition mountain_view : location :=
  {| lat := num 37.422; lng := num (-122.084); source := fetch_src |}.

Definition two_pairs_response : Response :=
  {| body := "[[100.5,20.5],[37.422,-122.084]]";
     clone_text := Normal "[[100.5,20.5],[37.422,-122.084]]" |}.

Definition ellipsis_response : Response :=
  {| body := "...,37.422,-122.084,...";
     clone_text := Normal "...,37.422,-122.084,..." |}.

Definition iframe_elsewhere : iframe :=
  {| src := "https://example.org/embed?pb=!3d1.5!4d2.5";
     new_URL := Normal {| searchParams := [("pb", "!3d1.5!4d2.5")] |} |}.

Definition iframe_nan_pb : iframe :=
  {| src := "https://www.google.com/maps/embed?pb=!3d.!4d.";
     new_URL := Normal {| searchParams := [("pb", "!3d.!4d.")] |} |}.

Definition not_a_number : location :=
  {| lat := NaN; lng := NaN; source := iframe_pb |}.

Definition map_iframe_added : mutation :=
  {| addedNodes :=
       [ OtherNode;
         Element "IFRAME"
           "https://www.google.com/maps/embed?pb=!1m3!3d48.8566!4d2.3522!5e0"
           [] ] |}.

Definition small_history : list Storage.entry :=
  [ Storage.entry_of philadelphia 900; Storage.entry_of paris 800 ].

Definition pair_response : Response :=
  {| body := "[37.422, -122.084]"; clone_text := Normal "[37.422, -122.084]" |}.

Definition pair_xhr : XMLHttpRequest :=
  {| _url := VString "https://example.org/api/location";
     responseText := Normal "[37.422, -122.084]" |}.






Definition iframe_without_src_added : Observer.mutation :=
  {| Observer.addedNodes :=
       [ Observer.Element "IFRAME" None [];
         Observer.Element "IFRAME"
           (Some "https://www.google.com/maps/embed?pb=!1m3!3d48.8566!4d2.3522!5e0")
           [] ] |}.

(* ================================================================== *)
(** ** Strings *)
(* ================================================================== *)

Section StringFacts.

Lemma append_nil_r (s : string) : s ++ "" = s.
Proof. induction s as [|c s IH]; simpl; [reflexivity | now rewrite IH]. Qed.

Lemma append_assoc (a b c : string) : (a ++ b) ++ c = a ++ (b ++ c).
Proof. induction a as [|x a IH]; simpl; [reflexivity | now rewrite IH]. Qed.

Lemma count_char_append (c : ascii) (a b : string) :
  count_char c (a ++ b) = (count_char c a + count_char c b)%nat.
Proof.
  induction a as [|x a IH]; simpl; [reflexivity | ].
  rewrite IH. lia.
Qed.

Lemma all_chars_append (p : ascii -> bool) (a b : string) :
  all_chars p (a ++ b) = all_chars p a && all_chars p b.
Proof.
  induction a as [|x a IH]; simpl; [reflexivity | ].
  now rewrite IH, andb_assoc.
Qed.

(** *** [split] *)

Lemma split_not_nil (sep : ascii) (s : string) : split sep s <> [].
Proof.
  destruct s as [|c s]; simpl; [discriminate | ].
  destruct (Ascii.eqb c sep); [discriminate | ].
  destruct (split sep s); discriminate.
Qed.

(** One part: the separator does not occur. *)
Lemma split_one (sep : ascii) (s a : string) :
  split sep s = [a] <-> s = a /\ has_char sep a = false.
Proof.
  revert a. induction s as [|c s IH]; intros a; simpl.
  - split.
    + intros H. injection H as <-. now split.
    + intros [<- _]. reflexivity.
  - destruct (Ascii.eqb c sep) eqn:E.
    + split.
      * intros H. injection H as _ H. now apply split_not_nil in H.
      * intros [<- H]. simpl in H. now rewrite E in H.
    + destruct (split sep s) as [|h t] eqn:S.
      * now apply split_not_nil in S.
      * split.
        -- intros H. injection H as <- ->.
           destruct (proj1 (IH h) eq_refl) as [-> Hh].
           split; [reflexivity | simpl; now rewrite E].
        -- intros [<- H]. simpl in H. rewrite E in H. simpl in H.
           pose proof (proj2 (IH s) (conj eq_refl H)) as S'.
           injection S' as -> ->. reflexivity.
Qed.

(** Two parts: exactly one separator. *)
Lemma split_two (sep : ascii) (s a b : string) :
  split sep s = [a; b] <->
  s = a ++ String sep b /\ has_char sep a = false /\ has_char sep b = false.
Proof.
  revert a. induction s as [|c s IH]; intros a; simpl.
  - split; [discriminate | ].
    intros [H _]. destruct a; discriminate.
  - destruct (Ascii.eqb c sep) eqn:E.
    + apply Ascii.eqb_eq in E. subst c. split.
      * intros H. injection H as <- H. apply split_one in H.
        destruct H as [-> H]. now repeat split.
      * intros (H & Ha & Hb). destruct a as [|x a].
        -- simpl in H. injection H as ->.
           now rewrite (proj2 (split_one sep b b) (conj eq_refl Hb)).
        -- simpl in H, Ha. injection H as <- _.
           now rewrite Ascii.eqb_refl in Ha.
    + destruct (split sep s) as [|h t] eqn:S.
      * now apply split_not_nil in S.
      * split.
        -- intros H. injection H as <- ->.
           destruct (proj1 (IH h) eq_refl) as (-> & Hh & Hb).
           repeat split; [simpl; now rewrite E | exact Hb].
        -- intros (H & Ha & Hb). destruct a as [|x a].
           ++ simpl in H. injection H as -> _.
              now rewrite Ascii.eqb_refl in E.
           ++ simpl in H, Ha. injection H as <- ->.
              rewrite E in Ha. simpl in Ha.
              pose proof (proj2 (IH a) (conj eq_refl (conj Ha Hb))) as S'.
              injection S' as -> ->. reflexivity.
Qed.

End StringFacts.

(* ================================================================== *)
(** ** [Utils.parseCoordinates] *)
(* ================================================================== *)

Section ParseCoordinates.

Lemma parseCoordinates_some (s : string) (x y : number) :
  Utils.parseCoordinates (Some s) = Some {| Utils.lat := x; Utils.lng := y |}
  <-> two_numeric_parts s x y.
Proof.
  unfold Utils.parseCoordinates, two_numeric_parts. split.
  - destruct (is_empty s) eqn:Es; [discriminate | ].
    destruct (split "," s) as [|a [|b [|c l]]] eqn:S; simpl; try discriminate.
    destruct (isNaN (parseFloat (trim a))) eqn:Na; simpl; [discriminate | ].
    destruct (isNaN (parseFloat (trim b))) eqn:Nb; simpl; [discriminate | ].
    intros H. injection H as <- <-.
    apply split_two in S. destruct S as (-> & Ha & Hb).
    exists a, b. repeat split; assumption.
  - intros (a & b & -> & Ha & Hb & <- & <- & Na & Nb).
    replace (is_empty (a ++ "," ++ b)) with false by (now destruct a).
    rewrite (proj2 (split_two "," (a ++ "," ++ b) a b)) by now repeat split.
    simpl. now rewrite Na, Nb.
Qed.

Lemma parseCoordinates_none (s : string) :
  Utils.parseCoordinates (Some s) = None
  <-> forall x y, ~ two_numeric_parts s x y.
Proof.
  split.
  - intros H x y P. apply parseCoordinates_some in P. congruence.
  - intros H. destruct (Utils.parseCoordinates (Some s)) as [[x y]|] eqn:E;
      [ | reflexivity].
    apply parseCoordinates_some in E. now apply H in E.
Qed.

End ParseCoordinates.

(** C9.  [parseCoordinates] accepts exactly the strings made of two
    comma-free parts around a single comma whose trimmed parts have a
    numeric prefix for [parseFloat]; trailing characters after the
    numeric prefix are ignored (['12.5abc, 30.2xyz'] gives 12.5 and
    30.2), no range is checked (['95,200'] gives 95 and 200), and the
    result is [null] exactly for an absent or empty argument and for a
    string that is not of that shape. *)
Theorem parseCoordinates_accepts_numeric_prefixes :
  (forall s x y,
      Utils.parseCoordinates (Some s)
        = Some {| Utils.lat := x; Utils.lng := y |}
      <-> two_numeric_parts s x y)
  /\ (forall s,
      Utils.parseCoordinates (Some s) = None
      <-> forall x y, ~ two_numeric_parts s x y)
  /\ Utils.parseCoordinates None = None
  /\ Utils.parseCoordinates (Some "") = None
  /\ Utils.parseCoordinates (Some "12.5abc, 30.2xyz")
       = Some {| Utils.lat := num 12.5; Utils.lng := num 30.2 |}
  /\ Utils.parseCoordinates (Some "95,200")
       = Some {| Utils.lat := num 95; Utils.lng := num 200 |}.
Proof.
  split; [exact parseCoordinates_some | ].
  split; [exact parseCoordinates_none | ].
  repeat split; vm_compute; reflexivity.
Qed.

(* ================================================================== *)
(** ** The passive scan *)
(* ================================================================== *)

Section PassiveScan.

Lemma scan_iframes_normal (l : list iframe) :
  exists r, scan_iframes l = Normal r.
Proof.
  induction l as [|f l [r IH]]; simpl.
  - now exists None.
  - destruct (try_catch (scan_iframe f) (fun _ => None)) as [loc|].
    + now exists (Some loc).
    + now exists r.
Qed.

(** The loop returns at the first iframe that yields a location. *)
Lemma scan_iframes_some (l : list iframe) (loc : location) :
  scan_iframes l = Normal (Some loc) <->
  exists before f after,
    l = (before ++ f :: after)%list
    /\ Forall (fun g => element_result g = None) before
    /\ element_result f = Some loc.
Proof.
  induction l as [|f l IH]; simpl.
  - split; [discriminate | ].
    intros (before & g & after & H & _). now destruct before.
  - fold (element_result f). destruct (element_result f) as [loc'|] eqn:E.
    + split.
      * intros H. injection H as ->.
        exists [], f, l. now repeat split.
      * intros ([|g before] & f' & after & H & Hb & Hf).
        -- injection H as <- _. congruence.
        -- injection H as <- _. inversion Hb; congruence.
    + rewrite IH. split.
      * intros (before & f' & after & -> & Hb & Hf).
        exists (f :: before), f', after. repeat split; [ | assumption].
        now constructor.
      * intros ([|g before] & f' & after & H & Hb & Hf).
        -- injection H as <- _. congruence.
        -- injection H as <- ->. inversion Hb; subst.
           now exists before, f', after.
Qed.

Lemma scan_iframes_none (l : list iframe) :
  scan_iframes l = Normal None <->
  Forall (fun g => element_result g = None) l.
Proof.
  induction l as [|f l IH]; simpl.
  - split; [constructor | reflexivity].
  - fold (element_result f). destruct (element_result f) as [loc'|] eqn:E.
    + split; [discriminate | ].
      intros H. inversion H; congruence.
    + rewrite IH. split.
      * intros H. now constructor.
      * intros H. now inversion H.
Qed.

Lemma extractFromIframe_scan (doc : document) :
  extractFromIframe doc = scan_iframes (querySelectorAll doc).
Proof.
  unfold extractFromIframe.
  now destruct (scan_iframes_normal (querySelectorAll doc)) as [r ->].
Qed.

Lemma extractFromIframe_normal (doc : document) :
  exists r, extractFromIframe doc = Normal r.
Proof. unfold extractFromIframe. eauto. Qed.

Lemma element_result_pb (f : iframe) (url : URL) (loc : location) :
  new_URL f = Normal url -> match_pb url = Some loc ->
  element_result f = Some loc.
Proof.
  intros Hu Hp. unfold element_result, scan_iframe.
  now rewrite Hu; simpl; rewrite Hp.
Qed.

Lemma element_result_location (f : iframe) (url : URL) :
  new_URL f = Normal url -> match_pb url = None ->
  element_result f = match_location url.
Proof.
  intros Hu Hp. unfold element_result, scan_iframe.
  now rewrite Hu; simpl; rewrite Hp.
Qed.

Lemma element_result_throw (f : iframe) (err : string) :
  new_URL f = Throw err -> element_result f = None.
Proof.
  intros Hu. unfold element_result, scan_iframe. now rewrite Hu.
Qed.

End PassiveScan.

(** C4.  The passive scanner goes through the selected iframes in
    document order and returns the result of the first one that yields a
    location, passing over every one that yields none (its URL does not
    parse, or neither parameter matches); it returns [null] exactly when
    no selected iframe yields a location.  Within one iframe the [pb]
    matcher is tried first and the [location] matcher only when [pb]
    gives nothing.  With one iframe that yields nothing and one that
    yields a location, the latter's location is returned in either
    order. *)
Theorem extractFromIframe_first_success :
  (forall doc loc,
      extractFromIframe doc = Normal (Some loc) <->
      exists before f after,
        querySelectorAll doc = (before ++ f :: after)%list
        /\ Forall (fun g => element_result g = None) before
        /\ element_result f = Some loc)
  /\ (forall doc,
      extractFromIframe doc = Normal None <->
      Forall (fun g => element_result g = None) (querySelectorAll doc))
  /\ (forall f url loc,
      new_URL f = Normal url -> match_pb url = Some loc ->
      element_result f = Some loc)
  /\ (forall f url,
      new_URL f = Normal url -> match_pb url = None ->
      element_result f = match_location url)
  /\ (forall f err, new_URL f = Throw err -> element_result f = None)
  /\ (forall f g loc,
      querySelectorAll [f; g] = [f; g] ->
      element_result f = None -> element_result g = Some loc ->
      extractFromIframe [f; g] = Normal (Some loc)
      /\ extractFromIframe [g; f] = Normal (Some loc)).
Proof.
  split; [intros; rewrite extractFromIframe_scan; apply scan_iframes_some | ].
  split; [intros; rewrite extractFromIframe_scan; apply scan_iframes_none | ].
  split; [exact element_result_pb | ].
  split; [exact element_result_location | ].
  split; [exact element_result_throw | ].
  intros f g loc Hsel Hf Hg.
  assert (Hsel' : querySelectorAll [g; f] = [g; f]).
  { unfold querySelectorAll in *. simpl in *.
    destruct (includes "google.com/maps" (src f));
      destruct (includes "google.com/maps" (src g));
      try reflexivity; discriminate. }
  rewrite !extractFromIframe_scan, Hsel, Hsel'. simpl.
  fold (element_result f) (element_result g).
  now rewrite Hf, Hg.
Qed.

Lemma extractFromIframe_first_success_witness :
  extractFromIframe [iframe_without_match; iframe_with_pb] = Normal (Some paris)
  /\ extractFromIframe [iframe_with_pb; iframe_without_match]
     = Normal (Some paris).
Proof.
  apply (proj2 (proj2 (proj2 (proj2 (proj2
           extractFromIframe_first_success))))
           iframe_without_match iframe_with_pb paris);
    vm_compute; reflexivity.
Defined.

(* ================================================================== *)
(** ** [getCurrentLocation] *)
(* ================================================================== *)

(** C3.  [getCurrentLocation] runs the iframe scan first.  When the scan
    yields a location, that location replaces whatever the cache held
    and is returned; when the scan yields [null], the cached value is
    returned and the cache is left as it was.  In particular a cached
    location that came from an iframe survives a scan that finds
    nothing, and is what the call returns. *)
Theorem getCurrentLocation_scan_then_cache :
  forall (doc : document) (st : cache),
    (forall loc,
        extractFromIframe doc = Normal (Some loc) ->
        getCurrentLocation doc st = Normal (Some loc, Some loc))
    /\ (extractFromIframe doc = Normal None ->
        getCurrentLocation doc st = Normal (st, st))
    /\ (forall cached,
        st = Some cached ->
        source cached = iframe_pb \/ source cached = iframe_location ->
        extractFromIframe doc = Normal None ->
        getCurrentLocation doc st = Normal (Some cached, Some cached)).
Proof.
  intros doc st. unfold getCurrentLocation. repeat split.
  - intros loc ->. reflexivity.
  - intros ->. reflexivity.
  - intros cached -> _ ->. reflexivity.
Qed.

Lemma getCurrentLocation_scan_then_cache_witness :
  getCurrentLocation [iframe_with_pb] (Some philadelphia)
    = Normal (Some paris, Some paris)
  /\ getCurrentLocation [iframe_without_match] (Some philadelphia)
    = Normal (Some philadelphia, Some philadelphia).
Proof.
  split.
  - apply (proj1 (getCurrentLocation_scan_then_cache
                    [iframe_with_pb] (Some philadelphia))).
    vm_compute; reflexivity.
  - apply (proj2 (proj2 (getCurrentLocation_scan_then_cache
                    [iframe_without_match] (Some philadelphia)))
             philadelphia).
    + reflexivity.
    + left; reflexivity.
    + vm_compute; reflexivity.
Defined.

(* ================================================================== *)
(** ** The backtracking matcher *)
(* ================================================================== *)

Section Matcher.

Lemma whole_push (c : ascii) (st : mstate) :
  whole (push c st) = whole st ++ String c "".
Proof. reflexivity. Qed.

Lemma whole_push_all (s : string) (st : mstate) :
  whole (push_all s st) = whole st ++ s.
Proof.
  revert st. induction s as [|c s IH]; intros st; simpl.
  - now rewrite append_nil_r.
  - rewrite IH, whole_push, append_assoc. reflexivity.
Qed.

(** *** From a match to the shape of the text *)

Lemma star_inv (cls : ascii -> bool) (k : matcher) (s : string)
    (st : mstate) (res : mstate * string) :
  star cls k s st = Some res ->
  exists run rest,
    s = run ++ rest /\ all_chars cls run = true
    /\ k rest (push_all run st) = Some res.
Proof.
  revert st. induction s as [|c s IH]; intros st; simpl.
  - intros H. now exists "", "".
  - destruct (cls c) eqn:C.
    + destruct (star cls k s (push c st)) as [res'|] eqn:S.
      * intros H. injection H as ->.
        destruct (IH _ S) as (run & rest & -> & Hrun & Hk).
        exists (String c run), rest. simpl. now rewrite C.
      * intros H. now exists "", (String c s).
    + intros H. now exists "", (String c s).
Qed.

Lemma rmatch_nil_inv (s : string) (st : mstate) (res : mstate * string) :
  rmatch [] s st = Some res -> res = (st, s).
Proof. simpl. intros H. now injection H. Qed.

Lemma rmatch_chr_inv (c : ascii) (re : regex) (s : string) (st : mstate)
    (res : mstate * string) :
  rmatch (Chr c :: re) s st = Some res ->
  exists r, s = String c r /\ rmatch re r (push c st) = Some res.
Proof.
  simpl. destruct s as [|x r]; [discriminate | ].
  destruct (Ascii.eqb x c) eqn:E; [ | discriminate].
  apply Ascii.eqb_eq in E. subst x. intros H. now exists r.
Qed.

Lemma rmatch_opt_inv (c : ascii) (re : regex) (s : string) (st : mstate)
    (res : mstate * string) :
  rmatch (Opt c :: re) s st = Some res ->
  (exists r, s = String c r /\ rmatch re r (push c st) = Some res)
  \/ rmatch re s st = Some res.
Proof.
  simpl. destruct s as [|x r]; [now right | ].
  destruct (Ascii.eqb x c) eqn:E; [ | now right].
  apply Ascii.eqb_eq in E. subst x.
  destruct (rmatch re r (push c st)) as [res'|] eqn:K.
  - intros H. injection H as ->. left. now exists r.
  - now right.
Qed.

Lemma rmatch_star_inv (cls : ascii -> bool) (re : regex) (s : string)
    (st : mstate) (res : mstate * string) :
  rmatch (Star cls :: re) s st = Some res ->
  exists run rest,
    s = run ++ rest /\ all_chars cls run = true
    /\ rmatch re rest (push_all run st) = Some res.
Proof. simpl. apply star_inv. Qed.

Lemma rmatch_plus_inv (cls : ascii -> bool) (re : regex) (s : string)
    (st : mstate) (res : mstate * string) :
  rmatch (Plus cls :: re) s st = Some res ->
  exists run rest,
    s = run ++ rest /\ all_chars cls run = true /\ is_empty run = false
    /\ rmatch re rest (push_all run st) = Some res.
Proof.
  simpl. destruct s as [|x r]; [discriminate | ].
  destruct (cls x) eqn:C; [ | discriminate].
  intros H. apply star_inv in H.
  destruct H as (run & rest & -> & Hrun & Hk).
  exists (String x run), rest. simpl. now rewrite C.
Qed.

(** The text consumed by a match is what was added to [whole]. *)
Lemma rmatch_consumes (re : regex) (s : string) (st0 st : mstate)
    (rest : string) :
  rmatch re s st0 = Some (st, rest) ->
  exists m, whole st = whole st0 ++ m /\ s = m ++ rest.
Proof.
  revert s st0. induction re as [|a re IH]; intros s st0 H.
  - apply rmatch_nil_inv in H. injection H as -> ->.
    exists "". now rewrite append_nil_r.
  - destruct a as [c|c|cls|cls| | ].
    + apply rmatch_chr_inv in H. destruct H as (r & -> & H).
      destruct (IH _ _ H) as (m & Hw & ->).
      exists (String c m). rewrite Hw, whole_push, append_assoc. now split.
    + apply rmatch_opt_inv in H. destruct H as [(r & -> & H)|H].
      * destruct (IH _ _ H) as (m & Hw & ->).
        exists (String c m). rewrite Hw, whole_push, append_assoc. now split.
      * now apply IH.
    + apply rmatch_plus_inv in H.
      destruct H as (run & r & -> & _ & _ & H).
      destruct (IH _ _ H) as (m & Hw & ->).
      exists (run ++ m). rewrite Hw, whole_push_all, !append_assoc. now split.
    + apply rmatch_star_inv in H.
      destruct H as (run & r & -> & _ & H).
      destruct (IH _ _ H) as (m & Hw & ->).
      exists (run ++ m). rewrite Hw, whole_push_all, !append_assoc. now split.
    + simpl in H. now apply IH in H.
    + simpl in H. now apply IH in H.
Qed.

(** [exec] finds the leftmost start position that matches. *)
Lemma exec_leftmost (re : regex) (s : string) (st : mstate) (rest : string) :
  exec re s = Some (st, rest) ->
  exists pre,
    s = pre ++ whole st ++ rest
    /\ rmatch re (whole st ++ rest) start = Some (st, rest)
    /\ forall p1 c p2,
         pre = p1 ++ String c p2 ->
         rmatch re (String c p2 ++ whole st ++ rest) start = None.
Proof.
  induction s as [|c s IH]; simpl.
  - destruct (rmatch re "" start) as [res|] eqn:M; [ | discriminate].
    intros H. injection H as ->.
    destruct (rmatch_consumes _ _ _ _ _ M) as (m & Hw & Hs). simpl in Hw.
    exists "". rewrite Hw, <- Hs. repeat split; [exact M | ].
    intros [|x p1] c p2 H; discriminate.
  - destruct (rmatch re (String c s) start) as [res|] eqn:M.
    + intros H. injection H as ->.
      destruct (rmatch_consumes _ _ _ _ _ M) as (m & Hw & Hs). simpl in Hw.
      exists "". rewrite Hw, <- Hs. repeat split; [exact M | ].
      intros [|x p1] c' p2 H; discriminate.
    + intros H. destruct (IH H) as (pre & Hs & Hm & Hpre).
      exists (String c pre). repeat split.
      * simpl. now rewrite <- Hs.
      * exact Hm.
      * intros [|x p1] c' p2 E; simpl in E; injection E as <- ->.
        -- simpl. now rewrite <- Hs.
        -- now apply Hpre with p1.
Qed.

(** The first element of a global match is the leftmost match. *)
Lemma str_match_g_first (re : regex) (s : string) :
  match exec re s with
  | Some (st, _) => exists tl, str_match_g re s = Some (whole st :: tl)
  | None => str_match_g re s = None
  end.
Proof.
  unfold str_match_g. simpl.
  destruct (exec re s) as [[st rest]|]; [ | reflexivity].
  eexists. reflexivity.
Qed.

(** *** From the shape of the text to a match *)

Lemma star_run (cls : ascii -> bool) (k : matcher) (run rest : string)
    (st : mstate) (res : mstate * string) :
  all_chars cls run = true ->
  stops cls rest = true ->
  k rest (push_all run st) = Some res ->
  star cls k (run ++ rest) st = Some res.
Proof.
  revert st. induction run as [|c run IH]; intros st Hrun Hstop Hk;
    simpl in *.
  - destruct rest as [|x rest]; simpl in *; [exact Hk | ].
    apply negb_true_iff in Hstop. now rewrite Hstop.
  - apply andb_true_iff in Hrun. destruct Hrun as [Hc Hrun].
    rewrite Hc. now rewrite (IH (push c st) Hrun Hstop Hk).
Qed.

Lemma rmatch_plus_run (cls : ascii -> bool) (re : regex) (run rest : string)
    (st : mstate) (res : mstate * string) :
  all_chars cls run = true ->
  is_empty run = false ->
  stops cls rest = true ->
  rmatch re rest (push_all run st) = Some res ->
  rmatch (Plus cls :: re) (run ++ rest) st = Some res.
Proof.
  intros Hrun Hne Hstop Hk. destruct run as [|c run]; [discriminate | ].
  simpl in *. apply andb_true_iff in Hrun. destruct Hrun as [Hc Hrun].
  rewrite Hc. now apply star_run.
Qed.

Lemma rmatch_opt_take (c : ascii) (re : regex) (r : string) (st : mstate)
    (res : mstate * string) :
  rmatch re r (push c st) = Some res ->
  rmatch (Opt c :: re) (String c r) st = Some res.
Proof. intros H. simpl. now rewrite Ascii.eqb_refl, H. Qed.

Lemma rmatch_opt_skip (c : ascii) (re : regex) (s : string) (st : mstate) :
  stops (fun x => Ascii.eqb x c) s = true ->
  rmatch (Opt c :: re) s st = rmatch re s st.
Proof.
  intros H. destruct s as [|x r]; simpl in *; [reflexivity | ].
  apply negb_true_iff in H. now rewrite H.
Qed.

(** No match begins before the end of a prefix at whose positions
    [rmatch] fails. *)
Lemma exec_skip (re : regex) (pre s : string) :
  (forall p1 c p2,
      pre = p1 ++ String c p2 ->
      rmatch re (String c p2 ++ s) start = None) ->
  exec re (pre ++ s) = exec re s.
Proof.
  induction pre as [|c pre IH]; intros H; [reflexivity | ].
  change (exec re (String c pre ++ s))
    with (match rmatch re (String c (pre ++ s)) start with
          | Some res => Some res
          | None => exec re (pre ++ s)
          end).
  pose proof (H "" c pre eq_refl) as H0. simpl in H0. rewrite H0. apply IH.
  intros p1 x p2 E. apply (H (String c p1)). simpl. now rewrite E.
Qed.

End Matcher.

(* ================================================================== *)
(** ** The free-text pattern *)
(* ================================================================== *)

Section CoordPattern.

(** A match of [coord_pattern] is two well-formed numerals around a
    comma and optional white space. *)
Lemma coord_match_shape (s : string) (st : mstate) (rest : string) :
  rmatch coord_pattern s start = Some (st, rest) ->
  exists n1 n2 ws,
    well_formed n1 = true /\ well_formed n2 = true
    /\ all_chars is_space ws = true
    /\ whole st = render n1 ++ "," ++ ws ++ render n2
    /\ s = whole st ++ rest.
Proof.
  unfold coord_pattern. intros H.
  assert (Hshape : exists (neg1 neg2 : bool) d1 d2 ws d3 d4 st0,
    whole st0 = (if neg1 then "-" else "")
    /\ all_chars is_digit d1 = true /\ is_empty d1 = false
    /\ all_chars is_digit d2 = true /\ is_empty d2 = false
    /\ all_chars is_space ws = true
    /\ all_chars is_digit d3 = true /\ is_empty d3 = false
    /\ all_chars is_digit d4 = true /\ is_empty d4 = false
    /\ whole st = (whole st0 ++ d1 ++ "." ++ d2 ++ "," ++ ws)
                  ++ (if neg2 then "-" else "") ++ d3 ++ "." ++ d4
    /\ s = whole st ++ rest).
  { apply rmatch_opt_inv in H.
    assert (H1 : exists (neg1 : bool) s1 st0,
               whole st0 = (if neg1 then "-" else "")
               /\ s = whole st0 ++ s1
               /\ rmatch (tl coord_pattern) s1 st0 = Some (st, rest)).
    { destruct H as [(r & -> & H)|H].
      - exists true, r, (push "-" start). now repeat split.
      - exists false, s, start. now repeat split. }
    clear H. destruct H1 as (neg1 & s1 & st0 & Hw0 & -> & H).
    unfold coord_pattern in H; simpl tl in H.
    apply rmatch_plus_inv in H. destruct H as (d1 & r & -> & Hd1 & Ne1 & H).
    apply rmatch_chr_inv in H. destruct H as (r' & -> & H).
    apply rmatch_plus_inv in H. destruct H as (d2 & r & -> & Hd2 & Ne2 & H).
    apply rmatch_chr_inv in H. destruct H as (r' & -> & H).
    apply rmatch_star_inv in H. destruct H as (ws & r & -> & Hws & H).
    apply rmatch_opt_inv in H.
    match type of H with
    | _ \/ rmatch ?re _ ?stx = _ =>
        assert (H2 : exists (neg2 : bool) s2 st2,
                   whole st2 = whole stx ++ (if neg2 then "-" else "")
                   /\ r = (if neg2 then "-" else "") ++ s2
                   /\ rmatch re s2 st2 = Some (st, rest))
    end.
    { destruct H as [(r' & -> & H)|H].
      - exists true, r'. eexists. split; [ | split; [ | exact H]]; reflexivity.
      - exists false, r. eexists. split; [ | split; [ | exact H]];
          [simpl; now rewrite append_nil_r | reflexivity]. }
    clear H. destruct H2 as (neg2 & s2 & st2 & Hw2 & -> & H).
    apply rmatch_plus_inv in H. destruct H as (d3 & r & -> & Hd3 & Ne3 & H).
    apply rmatch_chr_inv in H. destruct H as (r' & -> & H).
    apply rmatch_plus_inv in H. destruct H as (d4 & r & -> & Hd4 & Ne4 & H).
    apply rmatch_nil_inv in H. injection H as -> ->.
    exists neg1, neg2, d1, d2, ws, d3, d4, st0.
    repeat (split; [assumption | ]).
    assert (W : whole (push_all d4 (push "." (push_all d3 st2)))
                = (whole st0 ++ d1 ++ "." ++ d2 ++ "," ++ ws)
                  ++ (if neg2 then "-" else "") ++ d3 ++ "." ++ d4).
    { rewrite whole_push_all, whole_push, whole_push_all, Hw2.
      rewrite whole_push_all, whole_push, whole_push_all, whole_push,
        whole_push_all.
      rewrite !append_assoc. reflexivity. }
    split; [exact W | ].
    rewrite W, !append_assoc. reflexivity. }
  destruct Hshape as (neg1 & neg2 & d1 & d2 & ws & d3 & d4 & st0 & Hw0 &
    Hd1 & Ne1 & Hd2 & Ne2 & Hws & Hd3 & Ne3 & Hd4 & Ne4 & Hw & Hs).
  exists {| negative := neg1; int_digits := d1; frac_digits := d2 |},
         {| negative := neg2; int_digits := d3; frac_digits := d4 |}, ws.
  unfold well_formed, render; simpl.
  rewrite Hd1, Ne1, Hd2, Ne2, Hd3, Ne3, Hd4, Ne4. repeat split; try exact Hws.
  - rewrite Hw, Hw0, !append_assoc. reflexivity.
  - exact Hs.
Qed.

Lemma count_dot_render (n : numeral) : (1 <= count_char "." (render n))%nat.
Proof.
  unfold render. rewrite !count_char_append. simpl. lia.
Qed.

(** A text with fewer than two dots has no match. *)
Lemma exec_coord_needs_dots (text : string) :
  (count_char "." text < 2)%nat -> exec coord_pattern text = None.
Proof.
  intros Hc. destruct (exec coord_pattern text) as [[st rest]|] eqn:E;
    [ | reflexivity].
  apply exec_leftmost in E. destruct E as (pre & -> & M & _).
  apply coord_match_shape in M.
  destruct M as (n1 & n2 & ws & _ & _ & _ & Hw & _).
  rewrite Hw in Hc. rewrite !count_char_append in Hc.
  pose proof (count_dot_render n1). pose proof (count_dot_render n2). lia.
Qed.

(** What the [fetch] wrapper does to the cache: nothing, or it stores
    the pair parsed from the leftmost match, which passed both range
    checks. *)
Lemma fetch_cache_cases (originalFetch : value -> completion Response)
    (input : value) (st : cache) :
  snd (fetch originalFetch input st) = st
  \/ exists response url text m rest coords,
       originalFetch input = Normal response
       /\ url_of input = Normal url /\ fetch_keyword url = true
       /\ clone_text response = Normal text
       /\ exec coord_pattern text = Some (m, rest)
       /\ Utils.parseCoordinates (Some (whole m)) = Some coords
       /\ in_lat_range (Utils.lat coords) = true
       /\ in_lng_range (Utils.lng coords) = true
       /\ snd (fetch originalFetch input st)
          = Some (with_source coords fetch_src).
Proof.
  unfold fetch, inspect_fetch.
  destruct (originalFetch input) as [response|] eqn:O; [ | left; reflexivity].
  destruct (url_of input) as [url|] eqn:U; [ | left; reflexivity]. cbn [bind].
  fold (fetch_keyword url).
  destruct (fetch_keyword url) eqn:K; [ | left; reflexivity].
  destruct (clone_text response) as [text|] eqn:T; [ | left; reflexivity].
  cbn [bind].
  pose proof (str_match_g_first coord_pattern text) as F.
  destruct (exec coord_pattern text) as [[m rest]|] eqn:E.
  - destruct F as [tl ->]. cbn [nth_error].
    destruct (Utils.parseCoordinates (Some (whole m))) as [coords|] eqn:P;
      [ | left; reflexivity].
    destruct (in_lat_range (Utils.lat coords)) eqn:La; [ | left; reflexivity].
    destruct (in_lng_range (Utils.lng coords)) eqn:Lo; [ | left; reflexivity].
    right. exists response, url, text, m, rest, coords. now repeat split.
  - rewrite F. left; reflexivity.
Qed.

(** What the [load] listener does to the cache: nothing, or it stores
    the pair parsed from the leftmost match, whose latitude passed the
    range check. *)
Lemma xhr_cache_cases (xhr : XMLHttpRequest) (st : cache) :
  xhr_load xhr st = st
  \/ exists url text m rest coords,
       _url xhr = VString url
       /\ (includes "maps" url || includes "location" url) = true
       /\ responseText xhr = Normal text
       /\ exec coord_pattern text = Some (m, rest)
       /\ Utils.parseCoordinates (Some (whole m)) = Some coords
       /\ in_lat_range (Utils.lat coords) = true
       /\ xhr_load xhr st = Some (with_source coords xhr_src).
Proof.
  unfold xhr_load, inspect_xhr.
  destruct (_url xhr) as [url| |] eqn:U; [ | left; reflexivity | left; reflexivity].
  destruct (is_empty url); [left; reflexivity | ].
  destruct (includes "maps" url || includes "location" url) eqn:K;
    [ | left; reflexivity].
  destruct (responseText xhr) as [text|] eqn:T; [ | left; reflexivity].
  cbn [bind].
  pose proof (str_match_g_first coord_pattern text) as F.
  destruct (exec coord_pattern text) as [[m rest]|] eqn:E.
  - destruct F as [tl ->]. cbn [nth_error].
    destruct (Utils.parseCoordinates (Some (whole m))) as [coords|] eqn:P;
      [ | left; reflexivity].
    destruct (in_lat_range (Utils.lat coords)) eqn:La; [ | left; reflexivity].
    right. exists url, text, m, rest, coords. now repeat split.
  - rewrite F. left; reflexivity.
Qed.

End CoordPattern.

(* ================================================================== *)
(** ** The network interceptors *)
(* ================================================================== *)

(** C10.  Both interceptors see a pair only where each of its two
    numbers is written as digits, a dot, digits (with an optional minus
    sign): whenever the [fetch] wrapper or the [load] listener changes
    the cache, the body it read contains two such numerals around a
    comma.  A body with fewer than two dots, so every body whose numbers
    are written without a fractional part such as ['37,-122'], leaves
    the cache as it was in both interceptors. *)
Theorem interceptors_need_decimal_points :
  (forall originalFetch input st,
      snd (fetch originalFetch input st) <> st ->
      exists response text pre n1 n2 ws post,
        originalFetch input = Normal response
        /\ clone_text response = Normal text
        /\ well_formed n1 = true /\ well_formed n2 = true
        /\ all_chars is_space ws = true
        /\ text = pre ++ (render n1 ++ "," ++ ws ++ render n2) ++ post)
  /\ (forall xhr st,
      xhr_load xhr st <> st ->
      exists text pre n1 n2 ws post,
        responseText xhr = Normal text
        /\ well_formed n1 = true /\ well_formed n2 = true
        /\ all_chars is_space ws = true
        /\ text = pre ++ (render n1 ++ "," ++ ws ++ render n2) ++ post)
  /\ (forall originalFetch input st response text,
      originalFetch input = Normal response ->
      clone_text response = Normal text ->
      (count_char "." text < 2)%nat ->
      snd (fetch originalFetch input st) = st)
  /\ (forall xhr st text,
      responseText xhr = Normal text ->
      (count_char "." text < 2)%nat ->
      xhr_load xhr st = st)
  /\ (forall st,
      snd (fetch (fun _ => Normal integer_pair_response)
             (VString "https://example.org/api/location") st) = st
      /\ xhr_load integer_pair_xhr st = st).
Proof.
  assert (Hf : forall originalFetch input st response text,
      originalFetch input = Normal response ->
      clone_text response = Normal text ->
      (count_char "." text < 2)%nat ->
      snd (fetch originalFetch input st) = st).
  { intros originalFetch input st response text O T Hc.
    destruct (fetch_cache_cases originalFetch input st)
      as [H|(r & u & t & m & rest & c & O' & _ & _ & T' & E & _)];
      [exact H | ].
    rewrite O in O'. injection O' as <-. rewrite T in T'. injection T' as <-.
    now rewrite (exec_coord_needs_dots text Hc) in E. }
  assert (Hx : forall xhr st text,
      responseText xhr = Normal text ->
      (count_char "." text < 2)%nat ->
      xhr_load xhr st = st).
  { intros xhr st text T Hc.
    destruct (xhr_cache_cases xhr st)
      as [H|(u & t & m & rest & c & _ & _ & T' & E & _)]; [exact H | ].
    rewrite T in T'. injection T' as <-.
    now rewrite (exec_coord_needs_dots text Hc) in E. }
  split.
  { intros originalFetch input st Hne.
    destruct (fetch_cache_cases originalFetch input st)
      as [H|(r & u & t & m & rest & c & O & _ & _ & T & E & _)];
      [contradiction | ].
    apply exec_leftmost in E. destruct E as (pre & -> & M & _).
    apply coord_match_shape in M.
    destruct M as (n1 & n2 & ws & W1 & W2 & Hws & Hw & _).
    exists r, (pre ++ whole m ++ rest), pre, n1, n2, ws, rest.
    rewrite Hw in T |- *. now repeat split. }
  split.
  { intros xhr st Hne.
    destruct (xhr_cache_cases xhr st)
      as [H|(u & t & m & rest & c & _ & _ & T & E & _)]; [contradiction | ].
    apply exec_leftmost in E. destruct E as (pre & -> & M & _).
    apply coord_match_shape in M.
    destruct M as (n1 & n2 & ws & W1 & W2 & Hws & Hw & _).
    exists (pre ++ whole m ++ rest), pre, n1, n2, ws, rest.
    rewrite Hw in T |- *. now repeat split. }
  split; [exact Hf | ]. split; [exact Hx | ].
  intros st. split.
  - apply Hf with integer_pair_response "37,-122"; try reflexivity.
    simpl. lia.
  - apply Hx with "37,-122"; [reflexivity | simpl; lia].
Qed.

Lemma interceptors_need_decimal_points_witness :
  xhr_load integer_pair_xhr (Some philadelphia) = Some philadelphia.
Proof.
  apply (proj1 (proj2 (proj2 (proj2 interceptors_need_decimal_points)))
           integer_pair_xhr (Some philadelphia) "37,-122").
  - reflexivity.
  - simpl. lia.
Defined.

(** C2.  The [load] listener checks the latitude only: for the body
    ['12.5,200.5'] it stores the pair, whose longitude 200.5 is out of
    range, while the [fetch] wrapper, which checks both, leaves the
    cache as it was for the same body. *)
Theorem xhr_stores_longitude_out_of_range :
  xhr_load wide_longitude_xhr None
    = Some {| lat := num 12.5; lng := num 200.5; source := xhr_src |}
  /\ in_lng_range (num 200.5) = false
  /\ snd (fetch (fun _ => Normal wide_longitude_response)
            (VString "https://example.org/maps/api") None) = None.
Proof. repeat split; vm_compute; reflexivity. Qed.

(* ================================================================== *)
(** ** What reaches the cache *)
(* ================================================================== *)

Section CacheWriters.

Lemma in_lat_range_finite (x : number) :
  in_lat_range x = true -> is_finite x = true.
Proof. destruct x as [|[|]|q]; simpl; [discriminate.. | reflexivity]. Qed.

Lemma in_lng_range_finite (x : number) :
  in_lng_range x = true -> is_finite x = true.
Proof. destruct x as [|[|]|q]; simpl; [discriminate.. | reflexivity]. Qed.

(** One added node leaves the cache as it was or stores what the scan
    of the document yields. *)
Lemma added_node_cases (doc : document) (n : node) (st : cache) :
  exists st',
    added_node doc n st = Normal st'
    /\ (st' = st
        \/ exists loc, st' = Some loc
                       /\ extractFromIframe doc = Normal (Some loc)).
Proof.
  destruct n as [tagName node_src below|]; unfold added_node; [ | eauto].
  destruct (extractFromIframe_normal doc) as [[loc|] E]; rewrite E;
    destruct (String.eqb tagName "IFRAME"
              && includes "google.com/maps" node_src);
    destruct (0 <? List.length (querySelectorAll below))%nat;
    cbn [bind]; eauto 6.
Qed.

Lemma added_nodes_cases (doc : document) (ns : list node) (st : cache) :
  exists st',
    added_nodes doc ns st = Normal st'
    /\ (st' = st
        \/ exists loc, st' = Some loc
                       /\ extractFromIframe doc = Normal (Some loc)).
Proof.
  revert st. induction ns as [|n ns IH]; intros st; simpl; [eauto | ].
  destruct (added_node_cases doc n st) as (st1 & -> & H1). simpl.
  destruct (IH st1) as (st2 & -> & H2). exists st2. split; [reflexivity | ].
  destruct H2 as [-> | H2]; [exact H1 | now right].
Qed.

Lemma on_mutations_cases (doc : document) (ms : list mutation) (st : cache) :
  exists st',
    on_mutations doc ms st = Normal st'
    /\ (st' = st
        \/ exists loc, st' = Some loc
                       /\ extractFromIframe doc = Normal (Some loc)).
Proof.
  revert st. induction ms as [|m ms IH]; intros st; simpl; [eauto | ].
  destruct (added_nodes_cases doc (addedNodes m) st) as (st1 & -> & H1).
  simpl. destruct (IH st1) as (st2 & -> & H2).
  exists st2. split; [reflexivity | ].
  destruct H2 as [-> | H2]; [exact H1 | now right].
Qed.

End CacheWriters.

(** C1, as the code has it.  A location stored by the [fetch] wrapper
    has a finite latitude in [-90,90] and a finite longitude in
    [-180,180]; a location stored by the [load] listener has a finite
    latitude in [-90,90].  The iframe scan checks no range: whatever it
    parses is what the mutation observer stores and what
    [getCurrentLocation] stores and returns, so the [pb] value
    ['!3d95.0!4d200.0'] and the [location] value ['95,200'] both come
    back as latitude 95, longitude 200. *)
Theorem range_checks_are_in_the_interceptors_only :
  (forall originalFetch input st,
      snd (fetch originalFetch input st) = st
      \/ exists loc,
           snd (fetch originalFetch input st) = Some loc
           /\ source loc = fetch_src
           /\ is_finite (lat loc) = true /\ is_finite (lng loc) = true
           /\ in_bounds loc = true)
  /\ (forall xhr st,
      xhr_load xhr st = st
      \/ exists loc,
           xhr_load xhr st = Some loc
           /\ source loc = xhr_src
           /\ is_finite (lat loc) = true /\ in_lat_range (lat loc) = true)
  /\ (forall doc ms st,
      exists st',
        on_mutations doc ms st = Normal st'
        /\ (st' = st
            \/ exists loc, st' = Some loc
                           /\ extractFromIframe doc = Normal (Some loc)))
  /\ (forall doc st,
      exists r,
        extractFromIframe doc = Normal r
        /\ getCurrentLocation doc st
           = Normal match r with
                    | Some loc => (Some loc, Some loc)
                    | None => (st, st)
                    end)
  /\ getCurrentLocation [iframe_pb_out_of_range] None
     = Normal (Some {| lat := num 95; lng := num 200; source := iframe_pb |},
               Some {| lat := num 95; lng := num 200; source := iframe_pb |})
  /\ getCurrentLocation [iframe_location_out_of_range] None
     = Normal
         (Some {| lat := num 95; lng := num 200; source := iframe_location |},
          Some {| lat := num 95; lng := num 200; source := iframe_location |}).
Proof.
  split.
  { intros originalFetch input st.
    destruct (fetch_cache_cases originalFetch input st)
      as [H|(r & u & t & m & rest & c & _ & _ & _ & _ & _ & _ & La & Lo & H)];
      [now left | right].
    exists (with_source c fetch_src). unfold in_bounds. simpl.
    rewrite La, Lo, (in_lat_range_finite _ La), (in_lng_range_finite _ Lo).
    now repeat split. }
  split.
  { intros xhr st.
    destruct (xhr_cache_cases xhr st)
      as [H|(u & t & m & rest & c & _ & _ & _ & _ & _ & La & H)];
      [now left | right].
    exists (with_source c xhr_src). simpl.
    rewrite La, (in_lat_range_finite _ La). now repeat split. }
  split; [exact on_mutations_cases | ].
  split.
  { intros doc st. unfold getCurrentLocation.
    destruct (extractFromIframe_normal doc) as [[loc|] ->]; simpl; eauto. }
  split; vm_compute; reflexivity.
Qed.

(** C1, as the claim states it, fails: the out-of-range pair of a [pb]
    parameter is stored and returned. *)
Lemma getCurrentLocation_returns_out_of_range :
  exists loc,
    getCurrentLocation [iframe_pb_out_of_range] None
      = Normal (Some loc, Some loc)
    /\ lat loc = num 95 /\ lng loc = num 200
    /\ in_lat_range (lat loc) = false /\ in_lng_range (lng loc) = false.
Proof.
  exists {| lat := num 95; lng := num 200; source := iframe_pb |}.
  repeat split; vm_compute; reflexivity.
Qed.

(* ================================================================== *)
(** ** Numerals and [parseFloat] *)
(* ================================================================== *)

Section Numerals.

Lemma span_run (p : ascii -> bool) (a b : string) :
  all_chars p a = true -> stops p b = true -> span p (a ++ b) = (a, b).
Proof.
  intros Ha Hb. induction a as [|c a IH]; simpl in *.
  - destruct b as [|x b]; simpl in *; [reflexivity | ].
    apply negb_true_iff in Hb. now rewrite Hb.
  - apply andb_true_iff in Ha. destruct Ha as [Hc Ha].
    now rewrite Hc, (IH Ha).
Qed.

Lemma digit_not_space (c : ascii) : is_digit c = true -> is_space c = false.
Proof.
  unfold is_digit, is_space. intros H.
  apply andb_true_iff in H. destruct H as [H1 H2].
  apply N.leb_le in H1. apply N.leb_le in H2.
  repeat (apply orb_false_iff; split).
  - apply andb_false_iff. right. apply N.leb_gt. lia.
  - apply N.eqb_neq. lia.
  - apply N.eqb_neq. lia.
Qed.

Lemma digit_not_char (c x : ascii) :
  is_digit c = true -> is_digit x = false -> Ascii.eqb c x = false.
Proof.
  intros Hc Hx. apply Ascii.eqb_neq. intros ->. congruence.
Qed.

Lemma digits_value_acc (s : string) (acc : Z) :
  digits_value acc s
  = (acc * 10 ^ Z.of_nat (length s) + digits_value 0 s)%Z.
Proof.
  revert acc. induction s as [|c s IH]; intros acc; cbn [digits_value].
  - simpl. lia.
  - rewrite (IH (10 * acc + digit_val c)%Z), (IH (10 * 0 + digit_val c)%Z).
    change (length (String c s)) with (S (length s)).
    rewrite Nat2Z.inj_succ, Z.pow_succ_r by lia. ring.
Qed.

Lemma digits_value_append (a b : string) :
  digits_value 0 (a ++ b)
  = (digits_value 0 a * 10 ^ Z.of_nat (length b) + digits_value 0 b)%Z.
Proof.
  assert (H : forall acc, digits_value acc (a ++ b)
                          = digits_value (digits_value acc a) b).
  { induction a as [|c a IH]; intros acc; simpl; [reflexivity | apply IH]. }
  rewrite H. apply digits_value_acc.
Qed.

Lemma scale10_fraction (i f : Z) (k : nat) :
  (0 < k)%nat ->
  (scale10 (i * 10 ^ Z.of_nat k + f) (0 - Z.of_nat k)
   == inject_Z i + inject_Z f / inject_Z (10 ^ Z.of_nat k))%Q.
Proof.
  intros Hk. unfold scale10.
  assert (P : (0 < 10 ^ Z.of_nat k)%Z) by (apply Z.pow_pos_nonneg; lia).
  destruct (0 <=? 0 - Z.of_nat k)%Z eqn:E; [apply Z.leb_le in E; lia | ].
  replace (- (0 - Z.of_nat k))%Z with (Z.of_nat k) by lia.
  set (d := (10 ^ Z.of_nat k)%Z) in *.
  rewrite (Qmake_Qdiv (i * d + f) (Z.to_pos d)).
  rewrite Z2Pos.id by exact P.
  rewrite inject_Z_plus, inject_Z_mult.
  field. intros H. apply (inject_Z_injective d 0) in H. lia.
Qed.

Lemma scale10_opp (m e : Z) : (scale10 (- m) e == - scale10 m e)%Q.
Proof.
  unfold scale10. destruct (0 <=? e)%Z.
  - rewrite Z.mul_opp_l. unfold inject_Z, Qopp, Qeq. simpl. reflexivity.
  - unfold Qopp, Qeq. simpl. reflexivity.
Qed.

(** [parseFloat] reads a rendered numeral back as the number it
    denotes. *)
Lemma parseFloat_render (n : numeral) :
  well_formed n = true -> parseFloat (render n) = num (numeral_value n).
Proof.
  destruct n as [neg ip fp]. unfold well_formed, render, numeral_value.
  cbn [negative int_digits frac_digits]. intros W.
  apply andb_true_iff in W. destruct W as [W Nf].
  apply andb_true_iff in W. destruct W as [W Df].
  apply andb_true_iff in W. destruct W as [Di Ni].
  apply negb_true_iff in Ni, Nf.
  destruct ip as [|c ip]; [discriminate | ]. clear Ni.
  simpl in Di. apply andb_true_iff in Di. destruct Di as [Dc Di].
  assert (Hspan : span is_digit (String c (ip ++ String "." fp))
                  = (String c ip, String "." fp)).
  { apply (span_run is_digit (String c ip) (String "." fp));
      [simpl; now rewrite Dc | reflexivity]. }
  assert (Hspan2 : span is_digit fp = (fp, "")).
  { rewrite <- (append_nil_r fp) at 1. now apply span_run. }
  assert (Hlen : (0 < length fp)%nat)
    by (destruct fp; [discriminate | simpl; lia]).
  assert (Hbody : parseFloat
                    ((if neg then "-" else "") ++ String c (ip ++ String "." fp))
                  = Fin (Qred (scale10
                      (if neg then (- digits_value 0 (String c ip ++ fp))%Z
                       else digits_value 0 (String c ip ++ fp))
                      (0 - Z.of_nat (length fp))))).
  { unfold parseFloat.
    assert (Hs : strip_sign (trimStart
                   ((if neg then "-" else "") ++ String c (ip ++ String "." fp)))
                 = (neg, String c (ip ++ String "." fp))).
    { destruct neg; cbn [append trimStart]; [reflexivity | ].
      rewrite (digit_not_space c Dc). cbn [strip_sign].
      now rewrite !(digit_not_char c) by (assumption || reflexivity). }
    rewrite Hs.
    assert (Hinf : prefix "Infinity" (String c (ip ++ String "." fp)) = false).
    { cbn [prefix].
      destruct (ascii_dec "I" c) as [<- | ne];
        [discriminate Dc | reflexivity]. }
    rewrite Hinf, Hspan. cbn [Ascii.eqb Bool.eqb]. rewrite Hspan2.
    cbn [is_empty andb scan_exponent]. reflexivity. }
  change (String c ip ++ "." ++ fp) with (String c (ip ++ String "." fp)).
  rewrite Hbody. unfold num. f_equal. apply Qred_complete.
  rewrite digits_value_append.
  destruct neg.
  - rewrite scale10_opp, scale10_fraction by exact Hlen. reflexivity.
  - now rewrite scale10_fraction by exact Hlen.
Qed.

End Numerals.

(* ================================================================== *)
(** ** The [pb] pattern *)
(* ================================================================== *)

Section PbPattern.

Lemma captures_push_all (s : string) (st : mstate) :
  captures (push_all s st) = captures st.
Proof.
  revert st. induction s as [|c s IH]; intros st; simpl; [reflexivity | ].
  now rewrite IH.
Qed.

Lemma current_push_all (s : string) (st : mstate) :
  current (push_all s st) = option_map (fun g => g ++ s) (current st).
Proof.
  revert st. induction s as [|c s IH]; intros st; simpl.
  - destruct (current st); simpl; [now rewrite append_nil_r | reflexivity].
  - rewrite IH. simpl. destruct (current st); simpl; [ | reflexivity].
    now rewrite append_assoc.
Qed.

Lemma captures_push (c : ascii) (st : mstate) :
  captures (push c st) = captures st.
Proof. reflexivity. Qed.

(** A group that is opened, fed [s] and closed captures [s]. *)
Lemma captures_group (s : string) (st : mstate) :
  captures (close_group (push_all s (open_group st))) = (captures st ++ [s])%list.
Proof.
  unfold close_group. cbv beta iota delta [captures].
  change (captures (push_all s (open_group st)) ++
          match current (push_all s (open_group st)) with
          | Some g => [g]
          | None => []
          end = captures st ++ [s])%list.
  now rewrite captures_push_all, current_push_all.
Qed.

Lemma render_digits_or_dots (n : numeral) :
  well_formed n = true ->
  all_chars is_digit_or_dot (int_digits n ++ "." ++ frac_digits n) = true
  /\ is_empty (int_digits n ++ "." ++ frac_digits n) = false
  /\ stops (fun x => Ascii.eqb x "-")
       (int_digits n ++ "." ++ frac_digits n) = true.
Proof.
  destruct n as [neg ip fp]. unfold well_formed.
  cbn [negative int_digits frac_digits]. intros W.
  apply andb_true_iff in W. destruct W as [W Nf].
  apply andb_true_iff in W. destruct W as [W Df].
  apply andb_true_iff in W. destruct W as [Di Ni].
  assert (A : forall s, all_chars is_digit s = true ->
                        all_chars is_digit_or_dot s = true).
  { induction s as [|c s IH]; simpl; [reflexivity | ].
    intros H. apply andb_true_iff in H. destruct H as [Hc Hs].
    rewrite (IH Hs). unfold is_digit_or_dot. now rewrite Hc. }
  repeat split.
  - rewrite all_chars_append. rewrite (A ip Di). simpl. now apply A.
  - destruct ip; [discriminate | reflexivity].
  - destruct ip as [|c ip]; [discriminate | ]. simpl in *.
    apply andb_true_iff in Di. destruct Di as [Dc _].
    apply negb_true_iff. now apply digit_not_char.
Qed.

(** A signed run of digits and dots is matched whole by [-?[\d.]+]
    when what follows does not go on with a digit or a dot. *)
Lemma rmatch_numeral (n : numeral) (re : regex) (rest : string)
    (st : mstate) (res : mstate * string) :
  well_formed n = true ->
  stops is_digit_or_dot rest = true ->
  rmatch re rest (push_all (render n) st) = Some res ->
  rmatch (Opt "-" :: Plus is_digit_or_dot :: re) (render n ++ rest) st
  = Some res.
Proof.
  intros W Hstop Hk.
  destruct (render_digits_or_dots n W) as (Hall & Hne & Hminus).
  unfold render in *. destruct (negative n).
  - change ("-" ++ int_digits n ++ "." ++ frac_digits n)
      with (String "-" (int_digits n ++ "." ++ frac_digits n)) in *.
    change (String "-" (int_digits n ++ "." ++ frac_digits n) ++ rest)
      with (String "-" ((int_digits n ++ "." ++ frac_digits n) ++ rest)).
    apply rmatch_opt_take. now apply rmatch_plus_run.
  - change ("" ++ int_digits n ++ "." ++ frac_digits n)
      with (int_digits n ++ "." ++ frac_digits n) in *.
    rewrite rmatch_opt_skip.
    + now apply rmatch_plus_run.
    + destruct (int_digits n ++ "." ++ frac_digits n); [discriminate | ].
      exact Hminus.
Qed.

Lemma rmatch_chr_eq (c : ascii) (re : regex) (r : string) (st : mstate) :
  rmatch (Chr c :: re) (String c r) st = rmatch re r (push c st).
Proof. simpl. now rewrite Ascii.eqb_refl. Qed.

Lemma rmatch_open_eq (re : regex) (s : string) (st : mstate) :
  rmatch (GroupOpen :: re) s st = rmatch re s (open_group st).
Proof. reflexivity. Qed.

Lemma rmatch_close_eq (re : regex) (s : string) (st : mstate) :
  rmatch (GroupClose :: re) s st = rmatch re s (close_group st).
Proof. reflexivity. Qed.

Lemma pb_match_here (la lo : numeral) (post : string) :
  well_formed la = true -> well_formed lo = true ->
  stops is_digit_or_dot post = true ->
  exists st,
    rmatch pb_pattern ("!3d" ++ render la ++ "!4d" ++ render lo ++ post) start
    = Some (st, post)
    /\ captures st = [render la; render lo].
Proof.
  intros Wa Wo Hstop. eexists. split.
  - unfold pb_pattern.
    change ("!3d" ++ render la ++ "!4d" ++ render lo ++ post)
      with (String "!" (String "3" (String "d"
              (render la ++ "!4d" ++ render lo ++ post)))).
    rewrite !rmatch_chr_eq, rmatch_open_eq.
    apply rmatch_numeral; [exact Wa | reflexivity | ].
    change ("!4d" ++ render lo ++ post)
      with (String "!" (String "4" (String "d" (render lo ++ post)))).
    rewrite rmatch_close_eq, !rmatch_chr_eq, rmatch_open_eq.
    apply rmatch_numeral; [exact Wo | exact Hstop | ].
    rewrite rmatch_close_eq. reflexivity.
  - rewrite captures_group, !captures_push, captures_group. reflexivity.
Qed.

Lemma pb_match_starts_with_marker (s : string) (st : mstate)
    (res : mstate * string) :
  rmatch pb_pattern s st = Some res -> prefix "!3d" s = true.
Proof.
  unfold pb_pattern. intros H.
  apply rmatch_chr_inv in H. destruct H as (r & -> & H).
  apply rmatch_chr_inv in H. destruct H as (r' & -> & H).
  apply rmatch_chr_inv in H. destruct H as (r'' & -> & H).
  destruct r''; reflexivity.
Qed.

Lemma includes_suffix (needle a b : string) :
  includes needle b = true -> includes needle (a ++ b) = true.
Proof.
  intros H. induction a as [|c a IH]; [exact H | ].
  cbn [append includes]. rewrite IH. apply orb_true_r.
Qed.

Lemma includes_prefix (needle s : string) :
  prefix needle s = true -> includes needle s = true.
Proof. intros H. destruct s; simpl in *; now rewrite H. Qed.

(** No match begins inside a prefix that does not contain the marker
    [!3d], when the text after it begins with the marker. *)
Lemma pb_no_earlier_match (pre t : string) :
  includes "!3d" pre = false ->
  forall p1 c p2,
    pre = p1 ++ String c p2 ->
    rmatch pb_pattern (String c p2 ++ "!3d" ++ t) start = None.
Proof.
  intros Hpre p1 c p2 ->.
  destruct (rmatch pb_pattern (String c p2 ++ "!3d" ++ t) start) as [res|] eqn:M;
    [ | reflexivity].
  apply pb_match_starts_with_marker in M.
  assert (P : prefix "!3d" (String c p2) = true).
  { destruct p2 as [|x [|y p2]]; cbn [append prefix] in M |- *.
    - destruct (ascii_dec "!" c); [ | discriminate].
      destruct (ascii_dec "3" "!"); discriminate.
    - destruct (ascii_dec "!" c); [ | discriminate].
      destruct (ascii_dec "3" x); [ | discriminate].
      destruct (ascii_dec "d" "!"); discriminate.
    - destruct (ascii_dec "!" c); [ | discriminate].
      destruct (ascii_dec "3" x); [ | discriminate].
      destruct (ascii_dec "d" y); [ | discriminate].
      destruct p2; reflexivity. }
  rewrite (includes_suffix "!3d" p1 _ (includes_prefix _ _ P)) in Hpre.
  discriminate.
Qed.

Lemma get_has (name : string) (url : URL) (v : string) :
  get name url = Some v -> has name url = true.
Proof.
  unfold get, has. induction (searchParams url) as [|p l IH]; simpl;
    [discriminate | ].
  destruct (String.eqb (fst p) name); [reflexivity | exact IH].
Qed.

End PbPattern.

(** C7.  The [pb] matcher reads back the pair a [pb] parameter
    encodes: when the value of [pb] carries [!3d], a signed decimal
    numeral, [!4d], a second numeral, with no earlier [!3d] and with
    something other than a digit or a dot after the second numeral, the
    result is the pair of numbers the two numerals denote, tagged
    ['iframe-pb'].  This holds for every pair of numerals, those within
    [-90,90] and [-180,180] included; ['!3d48.8566!4d2.3522'] gives
    latitude 48.8566 and longitude 2.3522. *)
Theorem pb_round_trip :
  (forall (url : URL) (pre post : string) (la lo : numeral),
      well_formed la = true -> well_formed lo = true ->
      includes "!3d" pre = false ->
      stops is_digit_or_dot post = true ->
      get "pb" url
        = Some (pre ++ "!3d" ++ render la ++ "!4d" ++ render lo ++ post) ->
      match_pb url
        = Some {| lat := num (numeral_value la);
                  lng := num (numeral_value lo);
                  source := iframe_pb |})
  /\ match_pb {| searchParams := [("pb", "!3d48.8566!4d2.3522")] |}
     = Some {| lat := num 48.8566; lng := num 2.3522; source := iframe_pb |}.
Proof.
  split; [ | vm_compute; reflexivity].
  intros url pre post la lo Wa Wo Hpre Hpost Hget.
  unfold match_pb. rewrite (get_has _ _ _ Hget), Hget.
  unfold str_match.
  rewrite (exec_skip pb_pattern pre) by now apply pb_no_earlier_match.
  destruct (pb_match_here la lo post Wa Wo Hpost) as (st & M & C).
  assert (E : exec pb_pattern ("!3d" ++ render la ++ "!4d" ++ render lo ++ post)
              = Some (st, post)).
  { change ("!3d" ++ render la ++ "!4d" ++ render lo ++ post)
      with (String "!" ("3d" ++ render la ++ "!4d" ++ render lo ++ post)) in *.
    cbn [exec]. now rewrite M. }
  rewrite E, C. cbn [nth].
  now rewrite !parseFloat_render by assumption.
Qed.

Lemma pb_round_trip_witness :
  match_pb {| searchParams := [("pb", "!1m3!3d48.8566!4d2.3522!5e0")] |}
  = Some paris.
Proof.
  exact (proj1 pb_round_trip
           {| searchParams := [("pb", "!1m3!3d48.8566!4d2.3522!5e0")] |}
           "!1m3" "!5e0"
           {| negative := false; int_digits := "48"; frac_digits := "8566" |}
           {| negative := false; int_digits := "2"; frac_digits := "3522" |}
           eq_refl eq_refl eq_refl eq_refl eq_refl).
Defined.

(* ================================================================== *)
(** ** The leftmost pair of a response *)
(* ================================================================== *)

Section LeftmostPair.

Lemma coord_match_start (s : string) (st : mstate) (res : mstate * string) :
  rmatch coord_pattern s st = Some res -> coord_start s = true.
Proof.
  unfold coord_pattern. intros H.
  assert (D : forall t st',
             rmatch (tl coord_pattern) t st' = Some res ->
             match t with
             | String d _ => is_digit d = true
             | EmptyString => False
             end).
  { intros t st' K. unfold coord_pattern in K. simpl tl in K.
    apply rmatch_plus_inv in K. destruct K as (run & rest & -> & Hr & Ne & _).
    destruct run as [|d run]; [discriminate | ]. simpl in Hr.
    now apply andb_true_iff in Hr. }
  apply rmatch_opt_inv in H. destruct H as [(r & -> & H)|H].
  - apply D in H. destruct r as [|d r]; [contradiction | ].
    simpl. rewrite H. reflexivity.
  - apply D in H. destruct s as [|d r]; [contradiction | ].
    simpl. now rewrite H.
Qed.

(** No match begins inside a prefix without digits that is followed by
    a comma. *)
Lemma exec_coord_skip (pre t : string) :
  all_chars (fun c => negb (is_digit c)) pre = true ->
  exec coord_pattern (pre ++ String "," t) = exec coord_pattern (String "," t).
Proof.
  intros Hpre. apply exec_skip. intros p1 c p2 ->.
  destruct (rmatch coord_pattern (String c p2 ++ String "," t) start)
    as [res|] eqn:M; [ | reflexivity].
  apply coord_match_start in M.
  rewrite all_chars_append in Hpre. apply andb_true_iff in Hpre.
  destruct Hpre as [_ Hpre]. simpl in Hpre.
  apply andb_true_iff in Hpre. destruct Hpre as [Hc Hp2].
  apply negb_true_iff in Hc. simpl in M. rewrite Hc in M. simpl in M.
  destruct p2 as [|d p2]; simpl in M, Hp2.
  - rewrite andb_false_r in M. discriminate.
  - apply andb_true_iff in Hp2. destruct Hp2 as [Hd _].
    apply negb_true_iff in Hd. rewrite Hd, andb_false_r in M. discriminate.
Qed.

(** The cache after the [fetch] wrapper depends on the body only
    through its leftmost match. *)
Lemma fetch_cache_leftmost (input : value) (st : cache)
    (r1 r2 : Response) (t1 t2 : string) (m1 m2 : mstate)
    (rest1 rest2 : string) :
  clone_text r1 = Normal t1 -> clone_text r2 = Normal t2 ->
  exec coord_pattern t1 = Some (m1, rest1) ->
  exec coord_pattern t2 = Some (m2, rest2) ->
  whole m1 = whole m2 ->
  snd (fetch (fun _ => Normal r1) input st)
  = snd (fetch (fun _ => Normal r2) input st).
Proof.
  intros T1 T2 E1 E2 W. unfold fetch, inspect_fetch. cbn [snd].
  destruct (url_of input) as [url|]; [ | reflexivity]. cbn [bind].
  destruct (includes "maps" url || includes "location" url
            || includes "coordinates" url); [ | reflexivity].
  rewrite T1, T2. cbn [bind].
  pose proof (str_match_g_first coord_pattern t1) as F1.
  pose proof (str_match_g_first coord_pattern t2) as F2.
  rewrite E1 in F1. rewrite E2 in F2.
  destruct F1 as [tl1 ->]. destruct F2 as [tl2 ->].
  cbn [nth_error]. now rewrite W.
Qed.

End LeftmostPair.

(** C6.  Of the pairs in a response body the [fetch] wrapper considers
    the leftmost match and no other: [exec] returns the match that
    begins first, and two bodies with the same leftmost match leave the
    same cache.  A body that contains [,37.422,-122.084,] after a prefix
    without digits, fetched from a URL that passes the keyword filter,
    leaves the cache holding latitude 37.422, longitude -122.084, tagged
    ['fetch'], and the caller receives the original response.  When the
    leftmost pair is out of range, a later pair in range is not taken
    and the cache stays as it was. *)
Theorem fetch_takes_leftmost_pair :
  (forall text m rest,
      exec coord_pattern text = Some (m, rest) ->
      exists pre,
        text = pre ++ whole m ++ rest
        /\ forall p1 c p2,
             pre = p1 ++ String c p2 ->
             rmatch coord_pattern (String c p2 ++ whole m ++ rest) start
             = None)
  /\ (forall input st r1 r2 t1 t2 m1 m2 rest1 rest2,
      clone_text r1 = Normal t1 -> clone_text r2 = Normal t2 ->
      exec coord_pattern t1 = Some (m1, rest1) ->
      exec coord_pattern t2 = Some (m2, rest2) ->
      whole m1 = whole m2 ->
      snd (fetch (fun _ => Normal r1) input st)
      = snd (fetch (fun _ => Normal r2) input st))
  /\ (forall originalFetch input url st response pre post,
      originalFetch input = Normal response ->
      url_of input = Normal url -> fetch_keyword url = true ->
      all_chars (fun c => negb (is_digit c)) pre = true ->
      clone_text response = Normal (pre ++ ",37.422,-122.084," ++ post) ->
      fetch originalFetch input st = (Normal response, Some mountain_view))
  /\ (forall st,
      fetch (fun _ => Normal two_pairs_response)
        (VString "https://example.org/api/location") st
      = (Normal two_pairs_response, st)).
Proof.
  split.
  { intros text m rest E. apply exec_leftmost in E.
    destruct E as (pre & Ht & _ & Hpre). now exists pre. }
  split; [exact fetch_cache_leftmost | ].
  split; [ | intros st; reflexivity].
  intros originalFetch input url st response pre post O U K Hpre T.
  unfold fetch, inspect_fetch. rewrite O, U. cbn [bind].
  fold (fetch_keyword url). rewrite K, T. cbn [bind].
  pose proof (str_match_g_first coord_pattern
                (pre ++ ",37.422,-122.084," ++ post)) as F.
  change (",37.422,-122.084," ++ post)
    with (String "," ("37.422,-122.084," ++ post)) in F.
  rewrite (exec_coord_skip pre _ Hpre) in F.
  assert (E : exec coord_pattern (String "," ("37.422,-122.084," ++ post))
              = Some ({| whole := "37.422,-122.084"; captures := [];
                         current := None |}, String "," post))
    by reflexivity.
  rewrite E in F. destruct F as [tl F].
  change (",37.422,-122.084," ++ post)
    with (String "," ("37.422,-122.084," ++ post)).
  rewrite F. reflexivity.
Qed.

Lemma fetch_takes_leftmost_pair_witness :
  fetch (fun _ => Normal ellipsis_response)
    (VString "https://example.org/api/location") None
  = (Normal ellipsis_response, Some mountain_view).
Proof.
  apply (proj1 (proj2 (proj2 fetch_takes_leftmost_pair))
           (fun _ => Normal ellipsis_response)
           (VString "https://example.org/api/location")
           "https://example.org/api/location" None ellipsis_response
           "..." "...");
    reflexivity.
Defined.

(* ================================================================== *)
(** ** Further properties: the scan, the cache and the observer *)
(* ================================================================== *)

Import Props.

Section ScanComposition.

Lemma scan_iframes_app (l1 l2 : list iframe) :
  scan_iframes (l1 ++ l2)%list
  = match scan_iframes l1 with
    | Normal (Some loc) => Normal (Some loc)
    | _ => scan_iframes l2
    end.
Proof.
  induction l1 as [|f l1 IH]; simpl; [reflexivity | ].
  destruct (try_catch (scan_iframe f) (fun _ => None)); [reflexivity | ].
  exact IH.
Qed.

Lemma querySelectorAll_app (d1 d2 : document) :
  querySelectorAll (d1 ++ d2)%list
  = (querySelectorAll d1 ++ querySelectorAll d2)%list.
Proof. apply filter_app. Qed.

End ScanComposition.

Lemma getCurrentLocation_again (doc : document) (st : cache)
    (r : option location) (st' : cache) :
  getCurrentLocation doc st = Normal (r, st') ->
  r = st' /\ getCurrentLocation doc st' = Normal (r, st').
Proof.
  unfold getCurrentLocation.
  destruct (extractFromIframe_normal doc) as [[loc|] ->]; cbn [bind];
    intros H; injection H as <- <-; now split.
Qed.

(** X1.  What [getCurrentLocation] returns is what the cache holds
    afterwards, and a second call on the same document returns the same
    value and leaves the same cache. *)
Theorem getCurrentLocation_is_idempotent :
  forall (doc : document) (st : cache) (r : option location) (st' : cache),
    getCurrentLocation doc st = Normal (r, st') ->
    r = st' /\ getCurrentLocation doc st' = Normal (r, st').
Proof. exact getCurrentLocation_again. Qed.

Lemma getCurrentLocation_is_idempotent_witness :
  Some paris = Some paris
  /\ getCurrentLocation [iframe_with_pb] (Some paris)
     = Normal (Some paris, Some paris).
Proof.
  apply (getCurrentLocation_is_idempotent
           [iframe_with_pb] (Some philadelphia) (Some paris) (Some paris)).
  vm_compute; reflexivity.
Defined.

(** X2.  The scan of a document made of two parts is the scan of the
    first part when that finds a location, and the scan of the second
    part otherwise: iframes later in the document never change a
    location found earlier. *)
Theorem extractFromIframe_of_concatenation :
  forall (d1 d2 : document),
    extractFromIframe (d1 ++ d2)%list
    = match extractFromIframe d1 with
      | Normal (Some loc) => Normal (Some loc)
      | _ => extractFromIframe d2
      end.
Proof.
  intros d1 d2. rewrite !extractFromIframe_scan, querySelectorAll_app.
  apply scan_iframes_app.
Qed.

(** X3.  An iframe whose [src] does not contain [google.com/maps] has
    no influence on the scan, wherever it stands in the document and
    whatever its URL carries. *)
Theorem extractFromIframe_ignores_other_iframes :
  forall (d1 d2 : document) (f : iframe),
    includes "google.com/maps" (src f) = false ->
    extractFromIframe (d1 ++ f :: d2)%list = extractFromIframe (d1 ++ d2)%list.
Proof.
  intros d1 d2 f H. rewrite !extractFromIframe_scan, !querySelectorAll_app.
  unfold querySelectorAll at 2. cbn [filter]. now rewrite H.
Qed.

Lemma extractFromIframe_ignores_other_iframes_witness :
  extractFromIframe [iframe_elsewhere; iframe_with_pb]
  = extractFromIframe [iframe_with_pb].
Proof.
  apply (extractFromIframe_ignores_other_iframes
           [] [iframe_with_pb] iframe_elsewhere).
  vm_compute; reflexivity.
Defined.

Section MutationObserver.

Variable doc : document.
Variable scanned : option location.
Hypothesis Hscan : extractFromIframe doc = Normal scanned.

Lemma promote_idempotent (st : cache) :
  promote scanned (promote scanned st) = promote scanned st.
Proof. unfold promote. now destruct scanned. Qed.

Lemma added_node_eq (n : node) (st : cache) :
  added_node doc n st = Normal (if triggers_scan n then promote scanned st else st).
Proof.
  destruct n as [tagName node_src below|]; [ | reflexivity].
  unfold added_node, triggers_scan. rewrite Hscan. unfold promote.
  destruct (String.eqb tagName "IFRAME" && includes "google.com/maps" node_src);
    destruct (0 <? List.length (querySelectorAll below))%nat;
    destruct scanned; reflexivity.
Qed.

Lemma added_nodes_eq (ns : list node) (st : cache) :
  added_nodes doc ns st
  = Normal (if existsb triggers_scan ns then promote scanned st else st).
Proof.
  revert st. induction ns as [|n ns IH]; intros st; [reflexivity | ].
  cbn [added_nodes existsb]. rewrite added_node_eq. cbn [bind]. rewrite IH.
  destruct (triggers_scan n); cbn [orb]; [ | reflexivity].
  destruct (existsb triggers_scan ns); [ | reflexivity].
  now rewrite promote_idempotent.
Qed.

Lemma on_mutations_eq (ms : list mutation) (st : cache) :
  on_mutations doc ms st
  = Normal (if existsb (fun m => existsb triggers_scan (addedNodes m)) ms
            then promote scanned st else st).
Proof.
  revert st. induction ms as [|m ms IH]; intros st; [reflexivity | ].
  cbn [on_mutations existsb]. rewrite added_nodes_eq. cbn [bind]. rewrite IH.
  destruct (existsb triggers_scan (addedNodes m)); cbn [orb]; [ | reflexivity].
  destruct (existsb _ ms); [ | reflexivity].
  now rewrite promote_idempotent.
Qed.

End MutationObserver.

(** X5.  A query right after the observer's callback returns what it
    would have returned without the callback, and leaves the same
    cache: the callback only stores what the query's own scan finds. *)
Theorem observer_does_not_change_the_next_query :
  forall (doc : document) (ms : list mutation) (st st' : cache),
    on_mutations doc ms st = Normal st' ->
    getCurrentLocation doc st' = getCurrentLocation doc st.
Proof.
  intros doc ms st st'.
  destruct (extractFromIframe_normal doc) as [scanned Hs].
  rewrite (on_mutations_eq doc scanned Hs).
  intros H. injection H as <-. unfold getCurrentLocation. rewrite Hs.
  unfold promote.
  destruct scanned; [reflexivity | ].
  now destruct (existsb _ ms).
Qed.

Lemma observer_does_not_change_the_next_query_witness :
  getCurrentLocation [iframe_with_pb] (Some paris)
  = getCurrentLocation [iframe_with_pb] (Some philadelphia).
Proof.
  apply (observer_does_not_change_the_next_query
           [iframe_with_pb] [map_iframe_added]
           (Some philadelphia) (Some paris)).
  vm_compute; reflexivity.
Defined.

(* ================================================================== *)
(** ** Further properties: [parseCoordinates] and the free-text pattern *)
(* ================================================================== *)

Section Trim.

Lemma trimStart_spaces (w s : string) :
  all_chars is_space w = true -> trimStart (w ++ s) = trimStart s.
Proof.
  induction w as [|c w IH]; simpl; [reflexivity | ].
  intros H. apply andb_true_iff in H. destruct H as [Hc Hw].
  now rewrite Hc, IH.
Qed.

Lemma trimStart_all_spaces (w : string) :
  all_chars is_space w = true -> trimStart w = "".
Proof.
  intros H. rewrite <- (append_nil_r w). now rewrite trimStart_spaces.
Qed.

Lemma trimEnd_all_spaces (w : string) :
  all_chars is_space w = true -> trimEnd w = "".
Proof.
  induction w as [|c w IH]; simpl; [reflexivity | ].
  intros H. apply andb_true_iff in H. destruct H as [Hc Hw].
  now rewrite (IH Hw), Hc.
Qed.

Lemma trimEnd_spaces (s w : string) :
  all_chars is_space w = true -> trimEnd (s ++ w) = trimEnd s.
Proof.
  intros Hw. induction s as [|c s IH]; simpl.
  - now apply trimEnd_all_spaces.
  - now rewrite IH.
Qed.

Lemma trimEnd_last (s : string) (c : ascii) :
  is_space c = false -> trimEnd (s ++ String c "") = s ++ String c "".
Proof.
  intros Hc. induction s as [|x s IH]; simpl.
  - now rewrite Hc.
  - rewrite IH. destruct s; simpl; now rewrite andb_false_r.
Qed.

(** White space around a text does not change what [trim] gives. *)
Lemma trim_spaces (w1 a w2 : string) :
  all_chars is_space w1 = true -> all_chars is_space w2 = true ->
  trim (w1 ++ a ++ w2) = trim a.
Proof.
  intros H1 H2. unfold trim. rewrite trimStart_spaces by exact H1.
  induction a as [|c a IH]; simpl.
  - now rewrite (trimStart_all_spaces w2 H2).
  - destruct (is_space c); [exact IH | ].
    change (String c (a ++ w2)) with (String c a ++ w2).
    now apply trimEnd_spaces.
Qed.

Lemma last_char (p : ascii -> bool) (s : string) :
  all_chars p s = true -> is_empty s = false ->
  exists s' c, s = s' ++ String c "" /\ p c = true.
Proof.
  induction s as [|x s IH]; [discriminate | ]. simpl.
  intros H _. apply andb_true_iff in H. destruct H as [Hx Hs].
  destruct s as [|y s].
  - now exists "", x.
  - destruct (IH Hs eq_refl) as (s' & c & E & Hc).
    exists (String x s'), c. simpl. now rewrite <- E.
Qed.

Lemma has_char_all (p : ascii -> bool) (c : ascii) (s : string) :
  all_chars p s = true -> p c = false -> has_char c s = false.
Proof.
  intros Hs Hc. induction s as [|x s IH]; simpl in *; [reflexivity | ].
  apply andb_true_iff in Hs. destruct Hs as [Hx Hs]. rewrite (IH Hs).
  rewrite orb_false_r. apply Ascii.eqb_neq. intros ->. congruence.
Qed.

Lemma has_char_app (c : ascii) (a b : string) :
  has_char c (a ++ b) = has_char c a || has_char c b.
Proof.
  induction a as [|x a IH]; simpl; [reflexivity | ].
  now rewrite IH, orb_assoc.
Qed.

End Trim.

Section RenderedNumerals.

Variable n : numeral.
Hypothesis W : well_formed n = true.

Lemma well_formed_parts :
  all_chars is_digit (int_digits n) = true
  /\ is_empty (int_digits n) = false
  /\ all_chars is_digit (frac_digits n) = true
  /\ is_empty (frac_digits n) = false.
Proof.
  unfold well_formed in W.
  apply andb_true_iff in W. destruct W as [W1 Nf].
  apply andb_true_iff in W1. destruct W1 as [W2 Df].
  apply andb_true_iff in W2. destruct W2 as [Di Ni].
  apply negb_true_iff in Ni, Nf. now repeat split.
Qed.

Lemma render_no_comma : has_char "," (render n) = false.
Proof.
  destruct well_formed_parts as (Di & _ & Df & _).
  unfold render. rewrite !has_char_app.
  rewrite (has_char_all is_digit "," _ Di eq_refl).
  rewrite (has_char_all is_digit "," _ Df eq_refl).
  now destruct (negative n).
Qed.

Lemma trim_render : trim (render n) = render n.
Proof.
  destruct well_formed_parts as (Di & Ni & Df & Nf).
  destruct (last_char is_digit _ Df Nf) as (f' & d & Ef & Hd).
  unfold trim.
  assert (S : trimStart (render n) = render n).
  { unfold render. destruct (int_digits n) as [|c ip]; [discriminate | ].
    simpl in Di. apply andb_true_iff in Di. destruct Di as [Dc _].
    destruct (negative n); simpl; [reflexivity | ].
    now rewrite (digit_not_space c Dc). }
  rewrite S. unfold render. rewrite Ef.
  replace ((if negative n then "-" else "") ++
           int_digits n ++ "." ++ f' ++ String d "")
    with (((if negative n then "-" else "") ++ int_digits n ++ "." ++ f')
          ++ String d "")
    by now rewrite !append_assoc.
  apply trimEnd_last. now apply digit_not_space.
Qed.

End RenderedNumerals.

Lemma parseCoordinates_not_nan (arg : option string) (c : Utils.coords) :
  Utils.parseCoordinates arg = Some c ->
  isNaN (Utils.lat c) = false /\ isNaN (Utils.lng c) = false.
Proof.
  destruct arg as [s|]; [ | discriminate]. destruct c as [x y].
  intros H. apply parseCoordinates_some in H.
  destruct H as (a & b & _ & _ & _ & _ & _ & Hx & Hy). now split.
Qed.

(** Two rendered numerals around a comma and white space parse to the
    numbers they denote. *)
Lemma parseCoordinates_rendered (n1 n2 : numeral) (ws : string) :
  well_formed n1 = true -> well_formed n2 = true ->
  all_chars is_space ws = true ->
  Utils.parseCoordinates (Some (render n1 ++ "," ++ ws ++ render n2))
  = Some {| Utils.lat := num (numeral_value n1);
            Utils.lng := num (numeral_value n2) |}.
Proof.
  intros W1 W2 Hws. apply parseCoordinates_some.
  exists (render n1), (ws ++ render n2). repeat split.
  - now apply render_no_comma.
  - rewrite has_char_app, (render_no_comma n2 W2).
    now rewrite (has_char_all is_space "," ws Hws eq_refl).
  - rewrite (trim_render n1 W1). now apply parseFloat_render.
  - rewrite <- (append_nil_r (render n2)), <- append_assoc at 1.
    rewrite append_assoc.
    rewrite (trim_spaces ws (render n2) "" Hws eq_refl).
    rewrite (trim_render n2 W2). now apply parseFloat_render.
Qed.

(** X7.  Whatever the free-text pattern matches, [parseCoordinates]
    accepts: the leftmost match of a body is two numerals around a comma
    and white space, and it parses to the two numbers the numerals
    denote, so the interceptors' test for a [null] result never fails
    after a match. *)
Theorem every_match_parses :
  forall (text : string) (m : mstate) (rest : string),
    exec coord_pattern text = Some (m, rest) ->
    exists n1 n2 ws,
      well_formed n1 = true /\ well_formed n2 = true
      /\ all_chars is_space ws = true
      /\ whole m = render n1 ++ "," ++ ws ++ render n2
      /\ Utils.parseCoordinates (Some (whole m))
         = Some {| Utils.lat := num (numeral_value n1);
                   Utils.lng := num (numeral_value n2) |}.
Proof.
  intros text m rest E. apply exec_leftmost in E.
  destruct E as (pre & _ & M & _). apply coord_match_shape in M.
  destruct M as (n1 & n2 & ws & W1 & W2 & Hws & Hw & _).
  exists n1, n2, ws. repeat split; try assumption.
  rewrite Hw. now apply parseCoordinates_rendered.
Qed.

Lemma every_match_parses_witness :
  exists n1 n2 ws,
    well_formed n1 = true /\ well_formed n2 = true
    /\ all_chars is_space ws = true
    /\ "37.422, -122.084" = render n1 ++ "," ++ ws ++ render n2
    /\ Utils.parseCoordinates (Some "37.422, -122.084")
       = Some {| Utils.lat := num (numeral_value n1);
                 Utils.lng := num (numeral_value n2) |}.
Proof.
  apply (every_match_parses "[37.422, -122.084]"
           {| whole := "37.422, -122.084"; captures := []; current := None |}
           "]").
  vm_compute; reflexivity.
Defined.

(** X8.  White space before and after either part of a pair does not
    change what [parseCoordinates] returns. *)
Theorem parseCoordinates_ignores_surrounding_space :
  forall (a b w1 w2 w3 w4 : string),
    all_chars is_space w1 = true -> all_chars is_space w2 = true ->
    all_chars is_space w3 = true -> all_chars is_space w4 = true ->
    has_char "," a = false -> has_char "," b = false ->
    Utils.parseCoordinates
      (Some ((w1 ++ a ++ w2) ++ "," ++ (w3 ++ b ++ w4)))
    = Utils.parseCoordinates (Some (a ++ "," ++ b)).
Proof.
  intros a b w1 w2 w3 w4 H1 H2 H3 H4 Ha Hb.
  assert (C : forall w, all_chars is_space w = true -> has_char "," w = false)
    by (intros w Hw; now apply (has_char_all is_space)).
  unfold Utils.parseCoordinates.
  replace (is_empty ((w1 ++ a ++ w2) ++ "," ++ w3 ++ b ++ w4)) with false
    by (now destruct (w1 ++ a ++ w2)).
  replace (is_empty (a ++ "," ++ b)) with false by (now destruct a).
  rewrite (proj2 (split_two "," _ (w1 ++ a ++ w2) (w3 ++ b ++ w4))).
  - rewrite (proj2 (split_two "," _ a b)) by now repeat split.
    cbn [map]. now rewrite !trim_spaces.
  - repeat split; rewrite !has_char_app.
    + now rewrite (C w1 H1), (C w2 H2), Ha.
    + now rewrite (C w3 H3), (C w4 H4), Hb.
Qed.

Lemma parseCoordinates_ignores_surrounding_space_witness :
  Utils.parseCoordinates (Some (("  " ++ "48.8566" ++ " ") ++ "," ++
                                (" " ++ "2.3522" ++ "  ")))
  = Utils.parseCoordinates (Some ("48.8566" ++ "," ++ "2.3522")).
Proof.
  apply (parseCoordinates_ignores_surrounding_space
           "48.8566" "2.3522" "  " " " " " "  ");
    reflexivity.
Defined.

(* ================================================================== *)
(** ** Further properties: the two interceptors side by side *)
(* ================================================================== *)

(** X6.  A location that went through [parseCoordinates] never has a
    [NaN] coordinate: this holds for the result of the [location]
    matcher, which is tagged ['iframe-location'], and for everything the
    [fetch] wrapper and the [load] listener store. *)
Theorem parsed_pairs_are_never_nan :
  (forall url loc,
      match_location url = Some loc ->
      source loc = iframe_location
      /\ isNaN (lat loc) = false /\ isNaN (lng loc) = false)
  /\ (forall originalFetch input st,
      snd (fetch originalFetch input st) = st
      \/ exists loc,
           snd (fetch originalFetch input st) = Some loc
           /\ isNaN (lat loc) = false /\ isNaN (lng loc) = false)
  /\ (forall xhr st,
      xhr_load xhr st = st
      \/ exists loc,
           xhr_load xhr st = Some loc
           /\ isNaN (lat loc) = false /\ isNaN (lng loc) = false).
Proof.
  split.
  { intros url loc. unfold match_location.
    destruct (has "location" url); [ | discriminate].
    destruct (Utils.parseCoordinates (get "location" url)) as [c|] eqn:P;
      [ | discriminate].
    intros H. injection H as <-.
    destruct (parseCoordinates_not_nan _ _ P). now repeat split. }
  split.
  { intros originalFetch input st.
    destruct (fetch_cache_cases originalFetch input st)
      as [H|(r & u & t & m & rest & c & _ & _ & _ & _ & _ & P & _ & _ & H)];
      [now left | right].
    exists (with_source c fetch_src).
    destruct (parseCoordinates_not_nan _ _ P). now repeat split. }
  intros xhr st.
  destruct (xhr_cache_cases xhr st)
    as [H|(u & t & m & rest & c & _ & _ & _ & _ & P & _ & H)];
    [now left | right].
  exists (with_source c xhr_src).
  destruct (parseCoordinates_not_nan _ _ P). now repeat split.
Qed.

Section FetchAndXhr.

Variable url text : string.
Variable payload : string.

Let response : Response := {| body := payload; clone_text := Normal text |}.
Let xhr : XMLHttpRequest :=
  {| _url := VString url; responseText := Normal text |}.

Lemma xhr_keyword_nonempty : xhr_keyword url = true -> is_empty url = false.
Proof. destruct url; [discriminate | reflexivity]. Qed.

(** On a URL both filters let through, both interceptors decide on the
    same parsed pair; the [fetch] wrapper asks for one more range. *)
Lemma fetch_and_xhr_decide_alike (st : cache) :
  xhr_keyword url = true ->
  (snd (fetch (fun _ => Normal response) (VString url) st) = st
   /\ (xhr_load xhr st = st
       \/ exists loc, xhr_load xhr st = Some loc
                      /\ in_lng_range (lng loc) = false))
  \/ exists c,
       snd (fetch (fun _ => Normal response) (VString url) st)
         = Some (with_source c fetch_src)
       /\ xhr_load xhr st = Some (with_source c xhr_src)
       /\ in_lng_range (Utils.lng c) = true.
Proof.
  intros K. pose proof (xhr_keyword_nonempty K) as Ne.
  unfold fetch, inspect_fetch, xhr_load, inspect_xhr, xhr, response.
  cbn [url_of bind _url responseText clone_text snd try_catch].
  rewrite Ne. unfold xhr_keyword in K. rewrite K. cbn [orb bind try_catch].
  destruct (str_match_g coord_pattern text) as [coordMatch|];
    [ | left; split; [reflexivity | now left]].
  destruct (Utils.parseCoordinates (nth_error coordMatch 0)) as [c|];
    [ | left; split; [reflexivity | now left]].
  destruct (in_lat_range (Utils.lat c));
    [ | left; split; [reflexivity | now left]].
  cbn [andb]. destruct (in_lng_range (Utils.lng c)) eqn:Lo.
  - right. exists c. now repeat split.
  - left. split; [reflexivity | right].
    exists (with_source c xhr_src). now split.
Qed.

End FetchAndXhr.

(** X9.  On a URL that contains [maps] or [location], a body from which
    the [fetch] wrapper stores a pair makes the [load] listener store
    the same pair, tagged ['xhr'] instead of ['fetch']. *)
Theorem xhr_accepts_whatever_fetch_accepts :
  forall (url text payload : string) (loc : location),
    xhr_keyword url = true ->
    snd (fetch (fun _ => Normal {| body := payload; clone_text := Normal text |})
           (VString url) None) = Some loc ->
    xhr_load {| _url := VString url; responseText := Normal text |} None
    = Some {| lat := lat loc; lng := lng loc; source := xhr_src |}
    /\ source loc = fetch_src.
Proof.
  intros url text payload loc K H.
  destruct (fetch_and_xhr_decide_alike url text payload None K)
    as [[F _]|(c & F & X & _)]; rewrite F in H; [discriminate | ].
  injection H as <-. now rewrite X.
Qed.

Lemma xhr_accepts_whatever_fetch_accepts_witness :
  xhr_load pair_xhr None
  = Some {| lat := lat mountain_view; lng := lng mountain_view;
            source := xhr_src |}
  /\ source mountain_view = fetch_src.
Proof.
  apply (xhr_accepts_whatever_fetch_accepts
           "https://example.org/api/location" "[37.422, -122.084]"
           "[37.422, -122.084]" mountain_view);
    vm_compute; reflexivity.
Defined.

(** X10.  Conversely, a pair the [load] listener stores is stored by the
    [fetch] wrapper for the same URL and body whenever its longitude is
    within [-180,180]: the longitude test is the only difference
    between the two on such a request. *)
Theorem fetch_accepts_what_xhr_accepts_in_longitude_range :
  forall (url text payload : string) (loc : location),
    xhr_load {| _url := VString url; responseText := Normal text |} None
      = Some loc ->
    in_lng_range (lng loc) = true ->
    snd (fetch (fun _ => Normal {| body := payload; clone_text := Normal text |})
           (VString url) None)
    = Some {| lat := lat loc; lng := lng loc; source := fetch_src |}.
Proof.
  intros url text payload loc X Lo.
  assert (K : xhr_keyword url = true).
  { unfold xhr_load, inspect_xhr in X. cbn [_url] in X.
    destruct (is_empty url); [discriminate | ].
    unfold xhr_keyword.
    destruct (includes "maps" url || includes "location" url);
      [reflexivity | discriminate]. }
  destruct (fetch_and_xhr_decide_alike url text payload None K)
    as [[_ [X'|(l & X' & Lo')]]|(c & F & X' & _)]; rewrite X' in X.
  - discriminate.
  - injection X as <-. congruence.
  - injection X as <-. now rewrite F.
Qed.

Lemma fetch_accepts_what_xhr_accepts_in_longitude_range_witness :
  snd (fetch (fun _ => Normal {| body := "[37.422, -122.084]";
                                 clone_text := Normal "[37.422, -122.084]" |})
         (VString "https://example.org/api/location") None)
  = Some {| lat := num 37.422; lng := num (-122.084); source := fetch_src |}.
Proof.
  apply (fetch_accepts_what_xhr_accepts_in_longitude_range
           "https://example.org/api/location" "[37.422, -122.084]"
           "[37.422, -122.084]"
           {| lat := num 37.422; lng := num (-122.084); source := xhr_src |});
    vm_compute; reflexivity.
Defined.

(* ================================================================== *)
(** ** Further properties: the location history *)
(* ================================================================== *)

Section History.

Lemma strict_eq_sym (a b : number) :
  JSNumber.strict_eq a b = JSNumber.strict_eq b a.
Proof.
  destruct a as [|s|x], b as [|t|y]; simpl; try reflexivity.
  - now destruct s, t.
  - destruct (Qeq_bool x y) eqn:E.
    + apply Qeq_bool_iff in E. symmetry. apply Qeq_bool_iff. now symmetry.
    + destruct (Qeq_bool y x) eqn:E'; [ | reflexivity].
      apply Qeq_bool_iff in E'. symmetry in E'. apply Qeq_bool_iff in E'.
      congruence.
Qed.

Lemma strict_eq_refl (a : number) :
  isNaN a = false -> JSNumber.strict_eq a a = true.
Proof.
  destruct a as [|s|x]; simpl; [discriminate | | ]; intros _.
  - now destruct s.
  - apply Qeq_bool_iff. reflexivity.
Qed.

(** The test of the [filter] call, in terms of [at_location]. *)
Lemma addLocationToHistory_eq (now : Z) (location : location)
    (history : list Storage.entry) :
  Storage.addLocationToHistory now location history
  = Storage.entry_of location now
    :: firstn 49 (filter (fun h => negb (at_location location h)) history).
Proof.
  unfold Storage.addLocationToHistory.
  assert (F : filter (fun h =>
                negb (JSNumber.strict_eq (Storage.lat h) (lat location))
                || negb (JSNumber.strict_eq (Storage.lng h) (lng location)))
                history
              = filter (fun h => negb (at_location location h)) history).
  { apply filter_ext. intros h. unfold at_location.
    now rewrite negb_andb. }
  rewrite F. set (kept := filter _ history).
  destruct (Storage.MAX_HISTORY <? List.length (Storage.entry_of location now :: kept))%nat
    eqn:L.
  - reflexivity.
  - apply Nat.ltb_ge in L. unfold Storage.MAX_HISTORY in L. simpl in L.
    now rewrite firstn_all2 by lia.
Qed.

Lemma filter_all {A : Type} (p : A -> bool) (l : list A) :
  (forall x, In x l -> p x = true) -> filter p l = l.
Proof.
  induction l as [|a l IH]; intros H; simpl; [reflexivity | ].
  rewrite (H a (or_introl eq_refl)). f_equal. apply IH.
  intros x Hx. apply H. now right.
Qed.

Lemma In_firstn {A : Type} (n : nat) (l : list A) (x : A) :
  In x (firstn n l) -> In x l.
Proof.
  revert l. induction n as [|n IH]; intros [|a l]; simpl; try contradiction.
  intros [H|H]; [now left | right; now apply IH].
Qed.

Lemma distinct_places_filter (p : Storage.entry -> bool)
    (h : list Storage.entry) :
  distinct_places h = true -> distinct_places (filter p h) = true.
Proof.
  induction h as [|e h IH]; simpl; [reflexivity | ].
  intros H. apply andb_true_iff in H. destruct H as [He Hh].
  destruct (p e); [ | now apply IH]. simpl.
  rewrite (IH Hh), andb_true_r. apply forallb_forall. intros x Hx.
  apply filter_In in Hx. destruct Hx as [Hx _].
  now apply (proj1 (forallb_forall _ _) He).
Qed.

Lemma distinct_places_firstn (n : nat) (h : list Storage.entry) :
  distinct_places h = true -> distinct_places (firstn n h) = true.
Proof.
  revert h. induction n as [|n IH]; intros [|e h]; simpl; try reflexivity.
  intros H. apply andb_true_iff in H. destruct H as [He Hh].
  rewrite (IH h Hh), andb_true_r. apply forallb_forall. intros x Hx.
  apply In_firstn in Hx. now apply (proj1 (forallb_forall _ _) He).
Qed.

Lemma entry_of_at_location (location : location) (now : Z) :
  isNaN (lat location) = false -> isNaN (lng location) = false ->
  at_location location (Storage.entry_of location now) = true.
Proof.
  intros Ha Ho. unfold at_location, Storage.entry_of. simpl.
  now rewrite !strict_eq_refl.
Qed.

Lemma same_place_entry_of (location : location) (now : Z)
    (e : Storage.entry) :
  same_place (Storage.entry_of location now) e = at_location location e.
Proof.
  unfold same_place, at_location, Storage.entry_of. simpl.
  now rewrite (strict_eq_sym (lat location)), (strict_eq_sym (lng location)).
Qed.

End History.

(** X11.  After [addLocationToHistory] the history begins with the new
    entry, holds between 1 and 50 entries whatever it held before, and
    has grown by at most one. *)
Theorem history_is_bounded_and_starts_with_the_newest :
  forall (now : Z) (location : location) (history : list Storage.entry),
    let result := Storage.addLocationToHistory now location history in
    hd_error result = Some (Storage.entry_of location now)
    /\ (1 <= List.length result <= 50)%nat
    /\ (List.length result <= S (List.length history))%nat.
Proof.
  intros now location history result. subst result.
  rewrite addLocationToHistory_eq. cbn [hd_error List.length].
  split; [reflexivity | ].
  rewrite length_firstn.
  pose proof (filter_length_le (fun h => negb (at_location location h)) history).
  lia.
Qed.

(** X12.  Behind the new entry the history holds only entries it held
    before, and none of them is at the place of the new one. *)
Theorem history_keeps_one_entry_per_place :
  forall (now : Z) (location : location) (history : list Storage.entry)
         (e : Storage.entry),
    In e (tl (Storage.addLocationToHistory now location history)) ->
    at_location location e = false /\ In e history.
Proof.
  intros now location history e. rewrite addLocationToHistory_eq. cbn [tl].
  intros H. apply In_firstn in H. apply filter_In in H.
  destruct H as [Hin Hp]. apply negb_true_iff in Hp. now split.
Qed.

Lemma history_keeps_one_entry_per_place_witness :
  at_location paris (Storage.entry_of philadelphia 900) = false
  /\ In (Storage.entry_of philadelphia 900) small_history.
Proof.
  apply (history_keeps_one_entry_per_place 2000 paris small_history
           (Storage.entry_of philadelphia 900)).
  vm_compute. left. reflexivity.
Defined.

(** X13.  A history in which no two entries are at the same place stays
    so when a location is added. *)
Theorem history_stays_free_of_duplicates :
  forall (now : Z) (location : location) (history : list Storage.entry),
    distinct_places history = true ->
    distinct_places (Storage.addLocationToHistory now location history) = true.
Proof.
  intros now location history H. rewrite addLocationToHistory_eq.
  cbn [distinct_places]. apply andb_true_iff. split.
  - apply forallb_forall. intros x Hx. apply In_firstn in Hx.
    apply filter_In in Hx. destruct Hx as [_ Hp].
    now rewrite same_place_entry_of.
  - apply distinct_places_firstn. now apply distinct_places_filter.
Qed.

Lemma history_stays_free_of_duplicates_witness :
  distinct_places (Storage.addLocationToHistory 2000 paris small_history)
  = true.
Proof.
  apply (history_stays_free_of_duplicates 2000 paris small_history).
  vm_compute; reflexivity.
Defined.

(** X14.  Adding again the location that was added last, when neither
    coordinate is [NaN], changes the timestamp of the first entry and
    nothing else. *)
Theorem history_readding_refreshes_the_timestamp :
  forall (now later : Z) (location : location) (history : list Storage.entry),
    isNaN (lat location) = false -> isNaN (lng location) = false ->
    Storage.addLocationToHistory later location
      (Storage.addLocationToHistory now location history)
    = Storage.entry_of location later
      :: tl (Storage.addLocationToHistory now location history).
Proof.
  intros now later location history Ha Ho.
  rewrite (addLocationToHistory_eq later), (addLocationToHistory_eq now).
  cbn [tl filter]. rewrite (entry_of_at_location location now Ha Ho).
  cbn [negb]. f_equal. rewrite filter_all.
  - rewrite firstn_firstn. now rewrite Nat.min_id.
  - intros x Hx. apply In_firstn in Hx. apply filter_In in Hx. tauto.
Qed.

Lemma history_readding_refreshes_the_timestamp_witness :
  Storage.addLocationToHistory 3000 paris
    (Storage.addLocationToHistory 2000 paris small_history)
  = Storage.entry_of paris 3000
    :: tl (Storage.addLocationToHistory 2000 paris small_history).
Proof.
  apply (history_readding_refreshes_the_timestamp
           2000 3000 paris small_history);
    reflexivity.
Defined.

(** X15.  Adding a location at a place the history does not hold puts
    the new entry in front of the first 49 old entries: when the history
    is full, the entry dropped is the last, oldest one. *)
Theorem history_evicts_the_oldest :
  forall (now : Z) (location : location) (history : list Storage.entry),
    (forall e, In e history -> at_location location e = false) ->
    Storage.addLocationToHistory now location history
    = Storage.entry_of location now :: firstn 49 history.
Proof.
  intros now location history H. rewrite addLocationToHistory_eq.
  rewrite filter_all; [reflexivity | ].
  intros x Hx. now rewrite (H x Hx).
Qed.

Lemma history_evicts_the_oldest_witness :
  Storage.addLocationToHistory 2000 mountain_view small_history
  = Storage.entry_of mountain_view 2000 :: firstn 49 small_history.
Proof.
  apply (history_evicts_the_oldest 2000 mountain_view small_history).
  intros e [<- | [<- | []]]; vm_compute; reflexivity.
Defined.

(* ================================================================== *)
(** ** Further properties: the callers in [App] *)
(* ================================================================== *)

(** X16.  While the window is displayed, the monitoring timer's
    callback and [App.updateLocation] do the same to the extractor's
    cache, to [App.currentLocation] and to the history: their two
    tests for a changed location agree, also on [NaN]. *)
Theorem monitoring_tick_is_updateLocation :
  forall (now : Z) (doc : document) (stored : list Storage.entry)
         (st : cache) (cur : option location),
    App.monitoring_tick true now doc stored st cur
    = App.updateLocation now doc stored st cur.
Proof.
  intros now doc stored st cur.
  unfold App.monitoring_tick, App.updateLocation. cbn [negb].
  destruct (getCurrentLocation doc st) as [[[loc|] st']|err]; cbn [bind];
    try reflexivity.
  destruct cur as [c|]; [ | reflexivity].
  rewrite (strict_eq_sym (lat loc)), (strict_eq_sym (lng loc)).
  rewrite <- negb_andb.
  now destruct (JSNumber.strict_eq (lat c) (lat loc)
                && JSNumber.strict_eq (lng c) (lng loc)).
Qed.

(** X17.  Whenever [App.updateLocation] writes the history, the
    location it recorded is [App.currentLocation] and the extractor's
    cached location afterwards, it is the first entry of the history
    written, and that history has at most 50 entries. *)
Theorem updateLocation_records_what_it_shows :
  forall (now : Z) (doc : document) (stored : list Storage.entry)
         (st : cache) (cur : option location) (o : App.outcome)
         (h : list Storage.entry),
    App.updateLocation now doc stored st cur = Normal o ->
    App.history_written o = Some h ->
    exists loc,
      App.current_after o = Some loc
      /\ App.extractor_after o = Some loc
      /\ hd_error h = Some (Storage.entry_of loc now)
      /\ (List.length h <= 50)%nat.
Proof.
  intros now doc stored st cur o h. unfold App.updateLocation.
  destruct (getCurrentLocation doc st) as [[found st']|err] eqn:G;
    cbn [bind]; [ | discriminate].
  destruct (getCurrentLocation_again _ _ _ _ G) as [<- _].
  destruct found as [loc|].
  - destruct (match cur with
              | Some c => JSNumber.strict_eq (lat c) (lat loc)
                          && JSNumber.strict_eq (lng c) (lng loc)
              | None => false
              end);
      intros H; injection H as <-; cbn [App.history_written];
      intros Hh; [discriminate | ].
    injection Hh as <-. rewrite addLocationToHistory_eq.
    exists loc. cbn [App.current_after App.extractor_after hd_error
                     List.length].
    repeat split. rewrite length_firstn. lia.
  - intros H; injection H as <-. discriminate.
Qed.

Lemma updateLocation_records_what_it_shows_witness :
  exists loc,
    Some paris = Some loc /\ Some paris = Some loc
    /\ hd_error (Storage.addLocationToHistory 2000 paris small_history)
       = Some (Storage.entry_of loc 2000)
    /\ (List.length (Storage.addLocationToHistory 2000 paris small_history)
        <= 50)%nat.
Proof.
  apply (updateLocation_records_what_it_shows
           2000 [iframe_with_pb] small_history None (Some philadelphia)
           {| App.extractor_after := Some paris;
              App.current_after := Some paris;
              App.history_written :=
                Some (Storage.addLocationToHistory 2000 paris small_history) |}
           (Storage.addLocationToHistory 2000 paris small_history));
    vm_compute; reflexivity.
Defined.

(** X18.  A second [App.updateLocation] on an unchanged document, right
    after a first one, writes no history and changes neither
    [App.currentLocation] nor the extractor's cache, provided the
    current location has no [NaN] coordinate. *)
Theorem updateLocation_twice_records_once :
  forall (now later : Z) (doc : document)
         (stored stored' : list Storage.entry)
         (st : cache) (cur : option location) (o : App.outcome),
    App.updateLocation now doc stored st cur = Normal o ->
    (forall loc, App.current_after o = Some loc ->
                 isNaN (lat loc) = false /\ isNaN (lng loc) = false) ->
    App.updateLocation later doc stored'
      (App.extractor_after o) (App.current_after o)
    = Normal {| App.extractor_after := App.extractor_after o;
                App.current_after := App.current_after o;
                App.history_written := None |}.
Proof.
  intros now later doc stored stored' st cur o. unfold App.updateLocation.
  destruct (getCurrentLocation doc st) as [[found st']|err] eqn:G;
    cbn [bind]; [ | discriminate].
  destruct (getCurrentLocation_again _ _ _ _ G) as [<- G'].
  destruct found as [loc|].
  - destruct (match cur with
              | Some c => JSNumber.strict_eq (lat c) (lat loc)
                          && JSNumber.strict_eq (lng c) (lng loc)
              | None => false
              end) eqn:Same;
      intros H; injection H as <-;
      cbn [App.current_after App.extractor_after]; intros Hnan;
      rewrite G'; cbn [bind].
    + destruct cur as [c|]; [ | discriminate]. now rewrite Same.
    + destruct (Hnan loc eq_refl) as [Ha Ho].
      now rewrite !strict_eq_refl.
  - intros H; injection H as <-.
    cbn [App.current_after App.extractor_after]. intros _.
    rewrite G'. reflexivity.
Qed.

Lemma updateLocation_twice_records_once_witness :
  App.updateLocation 3000 [iframe_with_pb] small_history
    (Some paris) (Some paris)
  = Normal {| App.extractor_after := Some paris;
              App.current_after := Some paris;
              App.history_written := None |}.
Proof.
  apply (updateLocation_twice_records_once
           2000 3000 [iframe_with_pb] small_history small_history
           None (Some philadelphia)
           {| App.extractor_after := Some paris;
              App.current_after := Some paris;
              App.history_written :=
                Some (Storage.addLocationToHistory 2000 paris small_history) |}).
  - vm_compute; reflexivity.
  - intros loc H. injection H as <-. split; reflexivity.
Defined.

(** X19.  A location with a [NaN] coordinate, which the [pb] matcher
    yields for [!3d.!4d.], counts as changed at every call, whatever
    [App.currentLocation] is: each call writes the history, and the new
    entry goes in front of the first 49 old ones without replacing
    any. *)
Theorem nan_location_is_recorded_every_time :
  forall (now : Z) (doc : document) (stored : list Storage.entry)
         (st st' : cache) (cur : option location) (loc : location),
    getCurrentLocation doc st = Normal (Some loc, st') ->
    isNaN (lat loc) = true \/ isNaN (lng loc) = true ->
    App.updateLocation now doc stored st cur
    = Normal {| App.extractor_after := st';
                App.current_after := Some loc;
                App.history_written :=
                  Some (Storage.entry_of loc now :: firstn 49 stored) |}.
Proof.
  intros now doc stored st st' cur loc G Hnan.
  assert (A : forall a o, JSNumber.strict_eq a (lat loc)
                          && JSNumber.strict_eq o (lng loc) = false).
  { intros a o. destruct Hnan as [H|H].
    - destruct (lat loc); try discriminate. now destruct a.
    - destruct (lng loc); try discriminate.
      destruct o; simpl; now rewrite andb_false_r. }
  unfold App.updateLocation. rewrite G. cbn [bind].
  replace (match cur with
           | Some c => JSNumber.strict_eq (lat c) (lat loc)
                       && JSNumber.strict_eq (lng c) (lng loc)
           | None => false
           end) with false by (destruct cur; [now rewrite A | reflexivity]).
  rewrite addLocationToHistory_eq, filter_all; [reflexivity | ].
  intros e _. unfold at_location. now rewrite A.
Qed.

Lemma nan_location_is_recorded_every_time_witness :
  App.updateLocation 2000 [iframe_nan_pb]
    [Storage.entry_of not_a_number 900] None (Some not_a_number)
  = Normal {| App.extractor_after := Some not_a_number;
              App.current_after := Some not_a_number;
              App.history_written :=
                Some (Storage.entry_of not_a_number 2000
                      :: firstn 49 [Storage.entry_of not_a_number 900]) |}.
Proof.
  apply (nan_location_is_recorded_every_time
           2000 [iframe_nan_pb] [Storage.entry_of not_a_number 900]
           None (Some not_a_number) (Some not_a_number) not_a_number).
  - vm_compute; reflexivity.
  - left; reflexivity.
Defined.

(* ================================================================== *)
(** ** The [fetch] wrapper, its promise and the response object *)
(* ================================================================== *)

Import Async Terms.

Section Heap.




Lemma clone_then_text (r : ref) (h : heap) (o : object) :
  nth_error h r = Some o -> bodyUsed o = false ->
  exists h2 h3,
    clone r h = Normal (List.length h, h2)
    /\ text (List.length h) h2 = (reading o, h3).
Proof.
  intros Ho Hu. unfold clone, text. rewrite Ho, Hu.
  exists (h ++ [o])%list. eexists. split; [reflexivity | ].
  rewrite nth_error_app2, Nat.sub_diag by lia. simpl. now rewrite Hu.
Qed.

Lemma clone_fails (r : ref) (h : heap) (o : object) :
  nth_error h r = Some o -> bodyUsed o = true ->
  exists err, clone r h = Throw err.
Proof. intros Ho Hu. unfold clone. rewrite Ho, Hu. eauto. Qed.

End Heap.

Section WrappedFetch.

Variable originalFetch : value -> heap -> promise ref * heap.
Variable input : value.
Variable h : heap.
Variable st : cache.

(** The wrapper when the original promise is fulfilled, the URL passes
    the filter and the body of the response is unused. *)
Lemma wrapped_fetch_reads (response : ref) (h1 : heap) (url : string)
    (o : object) :
  originalFetch input h = (Fulfilled response, h1) ->
  url_of input = Normal url -> fetch_keyword url = true ->
  nth_error h1 response = Some o -> bodyUsed o = false ->
  exists h3,
    wrapped_fetch originalFetch input h st
    = match reading o with
      | Fulfilled body => (Fulfilled response, h3, inspect_text body st)
      | Rejected _ => (Fulfilled response, h3, st)
      | Pending => (Pending, h3, st)
      end.
Proof.
  intros O U K Ho Hu. unfold wrapped_fetch. rewrite O, U.
  unfold fetch_keyword in K. rewrite K.
  destruct (clone_then_text response h1 o Ho Hu) as (h2 & h3 & -> & ->).
  exists h3. now destruct (reading o).
Qed.


End WrappedFetch.


(** The coarser [fetch] is the wrapper on a response whose clone can be
    read to the end or fails to be read. *)
Lemma wrapped_fetch_refines
    (originalFetch : value -> heap -> promise ref * heap)
    (input : value) (h : heap) (st : cache) (response : ref) (h1 : heap)
    (o : object) (ct : completion string) :
  originalFetch input h = (Fulfilled response, h1) ->
  nth_error h1 response = Some o ->
  settled o = Some ct ->
  exists h',
    wrapped_fetch originalFetch input h st
    = (Fulfilled response, h',
       snd (fetch (fun _ => Normal {| body := bytes o; clone_text := ct |})
              input st)).
Proof.
  intros O Ho S. unfold fetch, inspect_fetch. cbn [snd clone_text].
  destruct (url_of input) as [url|] eqn:U.
  - cbn [bind]. fold (fetch_keyword url).
    destruct (fetch_keyword url) eqn:K.
    + unfold settled in S. destruct (bodyUsed o) eqn:Hu.
      * injection S as <-. cbn [bind try_catch].
        destruct (clone_fails _ _ _ Ho Hu) as [err C].
        unfold wrapped_fetch. rewrite O, U.
        unfold fetch_keyword in K. rewrite K, C. eauto.
      * destruct (wrapped_fetch_reads originalFetch input h st
                    response h1 url o O U K Ho Hu) as [h3 R].
        exists h3. rewrite R.
        destruct (reading o) as [a|err|]; [ | | discriminate];
          injection S as <-; [ | reflexivity].
        unfold inspect_text. cbn [bind].
        destruct (str_match_g coord_pattern a) as [coordMatch|];
          [ | reflexivity].
        destruct (Utils.parseCoordinates (nth_error coordMatch 0)) as [c|];
          [ | reflexivity].
        now destruct (in_lat_range (Utils.lat c)
                      && in_lng_range (Utils.lng c)).
    + unfold wrapped_fetch. rewrite O, U.
      unfold fetch_keyword in K. rewrite K. eauto.
  - unfold wrapped_fetch. rewrite O, U. eauto.
Qed.



(* ================================================================== *)
(** ** The observer's callback and the elements without a [src] *)
(* ================================================================== *)

Section ObserverCallback.

Variable doc : document.
Variable scanned : option location.
Hypothesis Hscan : extractFromIframe doc = Normal scanned.

Lemma scan_and_store_eq (st : cache) :
  Observer.scan_and_store doc st = (Normal tt, promote scanned st).
Proof.
  unfold Observer.scan_and_store, promote. rewrite Hscan.
  now destruct scanned.
Qed.

(** One node: it throws before storing anything, or it completes. *)
Lemma observer_added_node_eq (n : Observer.node) (st : cache) :
  exists c,
    Observer.added_node doc n st
    = (c, if breaks n then st
          else if triggers n then promote scanned st else st)
    /\ (c = Normal tt <-> breaks n = false).
Proof.
  destruct n as [tagName [s|] below|]; unfold Observer.added_node, breaks,
    triggers, Observer.seq; cbn [andb].
  - destruct (String.eqb tagName "IFRAME"); cbn [andb orb].
    + destruct (includes "google.com/maps" s); cbn [orb];
        unfold Observer.ret; rewrite ?scan_and_store_eq;
        destruct (0 <? List.length (querySelectorAll below))%nat;
        rewrite ?scan_and_store_eq, ?(promote_idempotent doc scanned Hscan);
        eexists; split; try reflexivity; tauto.
    + unfold Observer.ret.
      destruct (0 <? List.length (querySelectorAll below))%nat;
        rewrite ?scan_and_store_eq;
        eexists; split; try reflexivity; tauto.
  - destruct (String.eqb tagName "IFRAME"); cbn [andb orb].
    + unfold Observer.throw. eexists; split; [reflexivity | ].
      split; discriminate.
    + unfold Observer.ret.
      destruct (0 <? List.length (querySelectorAll below))%nat;
        rewrite ?scan_and_store_eq;
        eexists; split; try reflexivity; tauto.
  - unfold Observer.ret. eexists; split; [reflexivity | tauto].
Qed.

Lemma observer_added_nodes_eq (ns : list Observer.node) (st : cache) :
  exists c,
    Observer.added_nodes doc ns st
    = (c, if existsb triggers (before_first breaks ns)
          then promote scanned st else st)
    /\ (c = Normal tt <-> existsb breaks ns = false).
Proof.
  revert st. induction ns as [|n ns IH]; intros st.
  - exists (Normal tt). split; [reflexivity | tauto].
  - cbn [Observer.added_nodes before_first existsb]. unfold Observer.seq.
    destruct (observer_added_node_eq n st) as (c & -> & Hc).
    destruct (breaks n) eqn:B.
    + destruct c as [[]|err].
      * destruct Hc as [Hc _]. now specialize (Hc eq_refl).
      * exists (Throw err). cbn [existsb orb]. split; [reflexivity | ].
        split; discriminate.
    + destruct c as [[]|err]; [ | destruct Hc as [_ Hc];
                                  now specialize (Hc eq_refl)].
      cbn [existsb orb].
      destruct (IH (if triggers n then promote scanned st else st))
        as (c' & -> & Hc').
      exists c'. split; [ | exact Hc'].
      f_equal. destruct (triggers n); cbn [orb].
      * rewrite (promote_idempotent doc scanned Hscan).
        now destruct (existsb triggers (before_first breaks ns)).
      * reflexivity.
Qed.

Lemma observer_seq_nodes (ns1 ns2 : list Observer.node) (st : cache) :
  Observer.seq (Observer.added_nodes doc ns1) (Observer.added_nodes doc ns2) st
  = Observer.added_nodes doc (ns1 ++ ns2)%list st.
Proof.
  revert st. induction ns1 as [|n ns1 IH]; intros st.
  - reflexivity.
  - cbn [Observer.added_nodes app]. unfold Observer.seq in *.
    destruct (Observer.added_node doc n st) as [[[]|err] st1];
      [apply IH | reflexivity].
Qed.

Lemma observer_callback_flat (ms : list Observer.mutation) (st : cache) :
  Observer.callback doc ms st = Observer.added_nodes doc (visited ms) st.
Proof.
  revert st. induction ms as [|m ms IH]; intros st; [reflexivity | ].
  cbn [Observer.callback visited flat_map].
  rewrite <- observer_seq_nodes. unfold Observer.seq.
  destruct (Observer.added_nodes doc (Observer.addedNodes m) st)
    as [[[]|err] st1]; [apply IH | reflexivity].
Qed.

End ObserverCallback.

(** X4.  The mutation observer's callback visits the added nodes in
    order and stops, throwing, at the first element whose [tagName] is
    ['IFRAME'] and which has no [src]; it completes exactly when there
    is no such element.  The cache is left as it was unless one of the
    nodes visited before that point is a map iframe or has one below
    it; in that case it ends up holding what a scan of the whole
    document yields, and stays as it was when that scan yields
    nothing. *)
Theorem mutation_observer_promotes_the_scan :
  forall (doc : document) (ms : list Observer.mutation) (st : cache)
         (scanned : option location),
    extractFromIframe doc = Normal scanned ->
    snd (Observer.callback doc ms st)
    = (if existsb triggers (before_first breaks (visited ms))
       then promote scanned st else st)
    /\ (fst (Observer.callback doc ms st) = Normal tt
        <-> existsb breaks (visited ms) = false).
Proof.
  intros doc ms st scanned H. rewrite observer_callback_flat.
  destruct (observer_added_nodes_eq doc scanned H (visited ms) st)
    as (c & -> & Hc).
  split; [reflexivity | exact Hc].
Qed.

Lemma mutation_observer_promotes_the_scan_witness :
  snd (Observer.callback [iframe_with_pb] [iframe_without_src_added] None)
  = None
  /\ (fst (Observer.callback [iframe_with_pb] [iframe_without_src_added]
             None) = Normal tt
      <-> true = false).
Proof.
  apply (mutation_observer_promotes_the_scan
           [iframe_with_pb] [iframe_without_src_added] None (Some paris)).
  vm_compute; reflexivity.
Defined.

Section WithSrc.

Lemma visited_with_srcs (ms : list mutation) :
  visited (map with_srcs ms) = map with_src (flat_map Host.addedNodes ms).
Proof.
  unfold visited. induction ms as [|m ms IH]; [reflexivity | ].
  cbn [map flat_map]. rewrite IH, map_app. reflexivity.
Qed.

Lemma with_src_never_breaks (ns : list Host.node) :
  existsb breaks (map with_src ns) = false.
Proof.
  induction ns as [|n ns IH]; [reflexivity | ].
  cbn [map existsb]. rewrite IH. now destruct n.
Qed.

Lemma before_first_with_src (ns : list Host.node) :
  before_first breaks (map with_src ns) = map with_src ns.
Proof.
  induction ns as [|n ns IH]; [reflexivity | ].
  cbn [map before_first]. rewrite IH. now destruct n.
Qed.

Lemma triggers_with_src (ns : list Host.node) :
  existsb triggers (map with_src ns) = existsb triggers_scan ns.
Proof.
  induction ns as [|n ns IH]; [reflexivity | ].
  cbn [map existsb]. rewrite IH. now destruct n.
Qed.

Lemma existsb_flat_map (ms : list mutation) :
  existsb triggers_scan (flat_map Host.addedNodes ms)
  = existsb (fun m => existsb triggers_scan (Host.addedNodes m)) ms.
Proof.
  induction ms as [|m ms IH]; [reflexivity | ].
  cbn [flat_map existsb]. now rewrite existsb_app, IH.
Qed.

End WithSrc.

(** On elements that all have a [src], the callback is the coarser
    [on_mutations]. *)
Lemma observer_callback_refines (doc : document) (ms : list mutation)
    (st : cache) :
  exists st',
    on_mutations doc ms st = Normal st'
    /\ Observer.callback doc (map with_srcs ms) st = (Normal tt, st').
Proof.
  destruct (extractFromIframe_normal doc) as [scanned Hs].
  rewrite (on_mutations_eq doc scanned Hs). eexists. split; [reflexivity | ].
  rewrite (observer_callback_flat).
  destruct (observer_added_nodes_eq doc scanned Hs
              (visited (map with_srcs ms)) st) as (c & -> & Hc).
  rewrite visited_with_srcs in *.
  rewrite before_first_with_src, triggers_with_src, existsb_flat_map.
  now rewrite (proj2 Hc (with_src_never_breaks _)).
Qed.

(* ================================================================== *)
(** ** Failures fall back to the cache *)
(* ================================================================== *)

Section NoThrow.







End NoThrow.



